(** * Census pipeline, median bucket and benchmark harness

    A shallow embedding of the C++ sources

    - [lectures/soa/census.hpp]      (AoS and SoA census generators, age histogram),
    - [lectures/soa/median-age.cpp]  ([find_median_bucket] and [main]),
    - [timing.hpp]                   ([csc586::benchmark::benchmark]),
    - [data-generation.hpp]          ([build_rand_vec], [uniform_rand_vec_of_vec]),
    - the row/column traversal demo  ([row_oriented::calc_sum], [col_oriented::calc_sum]),

    together with the properties the specification states about them.

    Conventions.  Machine integers are values of [Z] with their wrap-around
    written out: [unsigned int] is 32 bits wide and [size_t] 64 bits wide (the
    LP64 data model the sources assume: "on most architectures, it is a 64-bit
    unsigned integer").  A [std::vector] or [std::array] is a [list]; indexing
    out of range is undefined behaviour in C++ and is reported as [None].
    [assert] aborts the process unless the translation unit is compiled with
    [NDEBUG]; both builds are covered by a boolean parameter.  [float] is IEEE
    binary32, taken from the standard library's [SpecFloat] at precision 24. *)

From Stdlib Require Import ZArith Lia Bool QArith.
From Stdlib Require Import Floats.SpecFloat.
From stdpp Require Import base numbers list option.

#[local] Open Scope Z_scope.

(** * Part I: the programs *)

(** ** Machine integers *)

Module Machine.

Definition wrap (width x : Z) : Z := x mod 2 ^ width.

(** [uint8_t] *)
Definition to_uint8 (x : Z) : Z := wrap 8 x.
(** [unsigned int], [uint32_t] *)
Definition to_uint32 (x : Z) : Z := wrap 32 x.
(** [size_t] *)
Definition to_size_t (x : Z) : Z := wrap 64 x.

Definition is_uint8 (x : Z) : Prop := 0 <= x < 2 ^ 8.
Definition is_uint32 (x : Z) : Prop := 0 <= x < 2 ^ 32.
Definition is_size_t (x : Z) : Prop := 0 <= x < 2 ^ 64.

End Machine.

Import Machine.

(** ** Stateful callables

    A C++ callable that advances some state when it is invoked (a functor
    owning a random engine, a lambda that captured one by reference, a function
    that calls [std::rand]) is a state transformer that also yields a value. *)

Definition State (S A : Type) : Type := S -> A * S.

Definition ret {S A : Type} (a : A) : State S A := fun s => (a, s).

Definition bind {S A B : Type} (m : State S A) (k : A -> State S B) : State S B :=
  fun s => let (a, s') := m s in k a s'.

Notation "x <- m ;; k" := (bind m (fun x => k))
  (at level 100, m at next level, right associativity).

(** Value initialisation [T()], as performed by [std::vector<T> v( size )] and
    by the empty braces of [std::array<T, N> a{}]. *)
Class ValueInit (T : Type) : Type := value_init : T.

#[export] Instance Z_value_init : ValueInit Z := 0.
#[export] Instance list_value_init {T : Type} : ValueInit (list T) := [].
#[export] Instance bool_value_init : ValueInit bool := false.

(** [std::vector<T> v( size )]: [size] value-initialised elements. *)
Definition vector {T : Type} `{ValueInit T} (size : nat) : list T :=
  replicate size value_init.

(** [std::generate( v.begin(), v.end(), gen )]: every position of [v], first
    to last, is assigned the result of the next invocation of [gen]. *)
Fixpoint generate {S T : Type} (v : list T) (gen : State S T) : State S (list T) :=
  match v with
  | [] => ret []
  | _ :: v' => x <- gen ;; r <- generate v' gen ;; ret (x :: r)
  end.

(** ** [census.hpp] *)

Inductive Sex : Type := male | female.
Inductive HousingStatus : Type := renter | owner.

#[export] Instance Sex_value_init : ValueInit Sex := male.
#[export] Instance HousingStatus_value_init : ValueInit HousingStatus := renter.

(** [using Age = uint8_t]: [sizeof( Age )] is 1. *)
Definition sizeof_Age : Z := 1.

(** What [census.hpp] takes from [<random>].  The engine and the distributions
    are library code; they are kept abstract.  A distribution object is built
    afresh for every draw ([age_distr( 120, .25 )( generator )]), so a draw is a
    function of the engine state alone, and it advances that state.  The
    value a distribution computes is handed back in its [result_type], which
    the callers below make explicit with [to_uint8] and [to_uint32]. *)
Class StdRandom : Type := {
  engine : Type;
  (** [std::default_random_engine generator;] (default-constructed) *)
  default_random_engine : engine;
  (** [std::uniform_int_distribution< uint32_t >( a, b )] *)
  sex_distr : Z -> Z -> State engine Z;
  (** [std::uniform_int_distribution< Country >( a, b )] *)
  country_distr : Z -> Z -> State engine Z;
  (** [std::binomial_distribution< Age >( t, p )] *)
  age_distr : Z -> Q -> State engine Z;
  (** [std::bernoulli_distribution( p )] *)
  hst_distr : Q -> State engine bool;
  (** [std::geometric_distribution< Income >( p )] *)
  income_distr : Q -> State engine Z;
}.

(** [++buckets[ index ]] on a [std::array< size_t, NUM_BUCKETS >]; [None] when
    the index is not below [NUM_BUCKETS] (undefined behaviour). *)
Definition increment (buckets : list Z) (index : Z) : option (list Z) :=
  if decide (0 <= index) then
    match buckets !! Z.to_nat index with
    | Some count => Some (<[Z.to_nat index := to_size_t (count + 1)]> buckets)
    | None => None
    end
  else None.

Module aos.

Record person : Type := {
  age : Z;               (* Age = uint8_t *)
  country : Z;           (* Country = uint8_t *)
  income : Z;            (* Income = uint32_t *)
  hst : HousingStatus;
  sex : Sex;
}.

#[export] Instance person_value_init : ValueInit person :=
  {| age := 0; country := 0; income := 0; hst := value_init; sex := value_init |}.

(** [build_person::operator()].  The braced initialiser evaluates its five
    expressions in the order written; [generator] is the functor's member.
    [income_distr( .5 )( generator ) + 10000] is computed in [unsigned int]. *)
Definition build_person `{StdRandom} : State engine person :=
  a <- age_distr 120 (25 # 100) ;;
  c <- country_distr 0 255 ;;
  i <- income_distr (5 # 10) ;;
  h <- hst_distr (68 # 100) ;;
  s <- sex_distr 0 1 ;;
  ret {| age := to_uint8 a;
         country := to_uint8 c;
         income := to_uint32 (to_uint32 i + 10000);
         hst := if h then owner else renter;
         sex := if to_uint32 s =? 0 then male else female |}.

Definition census : Type := list person.

(** [build_person{}] is a temporary whose engine member is default-constructed;
    [std::generate] works on its own copy, which is dropped at the end. *)
Definition create_random_census `{StdRandom} (population_size : nat) : census :=
  let population_data := vector population_size in
  fst (generate population_data build_person default_random_engine).

Fixpoint bucketise_loop (population_data : census) (buckets : list Z) : option (list Z) :=
  match population_data with
  | [] => Some buckets
  | person :: rest =>
      match increment buckets (age person) with
      | Some buckets' => bucketise_loop rest buckets'
      | None => None
      end
  end.

Definition bucketise_by_age (NUM_BUCKETS : nat) (population_data : census)
  : option (list Z) :=
  bucketise_loop population_data (replicate NUM_BUCKETS 0).

End aos.

Module soa.

Record census : Type := {
  sex : list Sex;
  age : list Z;            (* std::vector< Age > *)
  income : list Z;         (* std::vector< Income > *)
  country : list Z;        (* std::vector< Country > *)
  hst : list HousingStatus;
}.

(** The five lambdas handed to [std::generate]; each captures [generator] by
    reference. *)
Definition draw_sex `{StdRandom} : State engine Sex :=
  s <- sex_distr 0 1 ;; ret (if to_uint32 s =? 0 then male else female).

Definition draw_age `{StdRandom} : State engine Z :=
  a <- age_distr 120 (25 # 100) ;; ret (to_uint8 a).

Definition draw_income `{StdRandom} : State engine Z :=
  i <- income_distr (5 # 10) ;; ret (to_uint32 i).

Definition draw_country `{StdRandom} : State engine Z :=
  c <- country_distr 0 255 ;; ret (to_uint8 c).

Definition draw_hst `{StdRandom} : State engine HousingStatus :=
  h <- hst_distr (68 # 100) ;; ret (if h then owner else renter).

(** One engine, default-constructed, is shared by the five lambdas, so it is
    threaded through the five [std::generate] calls in the order written. *)
Definition create_random_census `{StdRandom} (population_size : nat) : census :=
  let generator := default_random_engine in
  let sex : list Sex := vector population_size in
  let age : list Z := vector population_size in
  let income : list Z := vector population_size in
  let country : list Z := vector population_size in
  let hst : list HousingStatus := vector population_size in
  fst ((sex <- generate sex draw_sex ;;
        age <- generate age draw_age ;;
        income <- generate income draw_income ;;
        country <- generate country draw_country ;;
        hst <- generate hst draw_hst ;;
        ret {| sex := sex; age := age; income := income;
               country := country; hst := hst |})
       generator).

Fixpoint bucketise_loop (ages : list Z) (buckets : list Z) : option (list Z) :=
  match ages with
  | [] => Some buckets
  | age :: rest =>
      match increment buckets age with
      | Some buckets' => bucketise_loop rest buckets'
      | None => None
      end
  end.

Definition bucketise_by_age (NUM_BUCKETS : nat) (population_data : census)
  : option (list Z) :=
  bucketise_loop (age population_data) (replicate NUM_BUCKETS 0).

End soa.

(** ** [median-age.cpp] *)

(** How a call ends: it returns a value, or an [assert] fails and the process
    is aborted. *)
Inductive outcome (A : Type) : Type :=
  | Returned (a : A)
  | Aborted.

Arguments Returned {A} a.
Arguments Aborted {A}.

(** [std::accumulate( buckets.cbegin(), buckets.cend(), 0u )]: the accumulator
    has the type of the initial value [0u], that is [unsigned int], and every
    partial sum is converted back to it. *)
Definition accumulate_0u (buckets : list Z) : Z :=
  fold_left (fun init x => to_uint32 (init + x)) buckets 0.

(** The [for] loop of [find_median_bucket].  [i] is declared [auto i = 0u], an
    [unsigned int], so [++i] wraps at [2 ^ 32]; [cumulative_total] is a
    [size_t].  [fuel] bounds the number of iterations that are run; [None]
    means the bound was reached before the loop ended. *)
Fixpoint find_median_loop (fuel : nat) (buckets : list Z) (n i cumulative_total : Z)
  : option Z :=
  match fuel with
  | O => None
  | S fuel' =>
      if i <? Z.of_nat (length buckets) then
        let cumulative_total :=
          to_size_t (cumulative_total + default 0 (buckets !! Z.to_nat i)) in
        if n / 2 <? cumulative_total then Some i
        else find_median_loop fuel' buckets n (to_uint32 (i + 1)) cumulative_total
      else Some (Z.of_nat (length buckets))
  end.

Definition find_median_bucket (fuel : nat) (NDEBUG : bool) (buckets : list Z) (n : Z)
  : option (outcome Z) :=
  if negb NDEBUG && negb (accumulate_0u buckets =? n) then Some Aborted
  else
    match find_median_loop fuel buckets n 0 0 with
    | Some i => Some (Returned i)
    | None => None
    end.

(** [main] of [median-age.cpp].  What the process takes from outside are the
    value of [std::time(0)], handed to [std::srand], and the two readings of
    [std::chrono::steady_clock] (in ticks of a nanosecond). *)
Record Environment : Type := {
  time0 : Z;
  start_time : Z;
  end_time : Z;
}.

(** [std::chrono::duration_cast< std::chrono::microseconds >( d ).count()] for
    a duration [d] in nanoseconds: integer division, truncated towards zero. *)
Definition duration_cast_microseconds (d : Z) : Z := Z.quot d 1000.

Definition population_size : Z := 100000000.

(** [1u << ( 8 * sizeof( Age ) )] *)
Definition age_bound : Z := to_uint32 (Z.shiftl 1 (8 * sizeof_Age)).

Record main_output : Type := {
  calculation_time : Z;
  median_age : option (outcome Z);
}.

(** [main], for any population size; [None] as median age stands for undefined
    behaviour while bucketing, or for a scan that did not end. *)
Definition main_with `{StdRandom} (population_size : Z) (env : Environment)
  : main_output :=
  let population_data := soa.create_random_census (Z.to_nat population_size) in
  let median_age :=
    match soa.bucketise_by_age (Z.to_nat age_bound) population_data with
    | Some buckets => find_median_bucket (S (length buckets)) false buckets population_size
    | None => None
    end in
  {| calculation_time := duration_cast_microseconds (end_time env - start_time env);
     median_age := median_age |}.

Definition main `{StdRandom} : Environment -> main_output := main_with population_size.

(** ** [timing.hpp] and [data-generation.hpp] *)

Module benchmark.

(** [using duration = float]: IEEE binary32. *)
Definition duration : Type := spec_float.

Definition float_prec : Z := 24.
Definition float_emax : Z := 128.

(** Conversion of an integer to [float] (round to nearest, ties to even). *)
Definition float_of_Z (z : Z) : duration := binary_normalize float_prec float_emax z 0 false.

Definition float_div (x y : duration) : duration := SFdiv float_prec float_emax x y.

(** What [benchmark] asks of [output_type]: [output_type output = 0] and
    [output + f(v)]. *)
Class Output (B : Type) : Type := {
  zero : B;
  plus : B -> B -> B;
}.

(** [std::for_each( first, last, body )] for a body that updates a variable it
    captured by reference (here [output]). *)
Fixpoint for_each {S A B : Type} (l : list A) (body : A -> B -> State S B) (output : B)
  : State S B :=
  match l with
  | [] => ret output
  | v :: l' => output' <- body v output ;; for_each l' body output'
  end.

(** What a call of [benchmark] leaves behind: the line written to [std::cout]
    and the value returned. *)
Record report (B : Type) : Type := {
  printed : B;
  average : duration;
}.

Arguments printed {B} r.
Arguments average {B} r.

(** The lambda [[&output, f]( auto const& v ){ output = output + f(v); }]. *)
Definition accumulate_into {S A B : Type} `{Output B} (f : A -> State S B)
  : A -> B -> State S B :=
  fun v output => r <- f v ;; ret (plus output r).

(** [benchmark( f, test_instances )].  [S] is whatever state invoking [f] may
    advance (for instance that of [std::rand]). *)
Definition benchmark {S A B : Type} `{Output B}
    (f : A -> State S B) (test_instances : list A) (env : Environment)
  : State S (report B) :=
  let output := zero in
  let start_time := start_time env in
  output <- for_each test_instances (accumulate_into f) output ;;
  let end_time := end_time env in
  ret {| printed := output;
         average := float_div
                      (float_of_Z (duration_cast_microseconds (end_time - start_time)))
                      (float_of_Z (Z.of_nat (length test_instances))) |}.

(** [build_rand_vec( gen, size )] *)
Definition build_rand_vec {S T : Type} `{ValueInit T} (gen : State S T) (size : nat)
  : State S (list T) :=
  let random_data := vector size in
  generate random_data gen.

(** [uniform_rand_vec_of_vec< T >( n, m )]; [rand] is [std::rand] and [cast] is
    [static_cast< T >]. *)
Definition uniform_rand_vec_of_vec {S : Type} (rand : State S Z) (cast : Z -> Z)
    (n m : nat) : State S (list (list Z)) :=
  build_rand_vec (build_rand_vec (x <- rand ;; ret (cast x)) m) n.

(** Two output types: [uint32_t], as the sums of [calc_sum] over
    [std::vector< uint32_t >], and unbounded integers. *)
Definition uint32_output : Output Z := {| zero := 0; plus := fun a b => to_uint32 (a + b) |}.
Definition Z_output : Output Z := {| zero := 0; plus := Z.add |}.

(** [c] added [k] times to [output_type output = 0]. *)
Definition times {B : Type} `{Output B} (k : nat) (c : B) : B :=
  Nat.iter k (fun output => plus output c) zero.

(** A callable that also records, in invocation order, the inputs it is
    applied to. *)
Definition traced {S A B : Type} (f : A -> State S B) : A -> State (S * list A) B :=
  fun v '(s, log) => let (r, s') := f v s in (r, (s', log ++ [v])).

(** [x >= 0.0f] *)
Definition non_negative (x : duration) : Prop := SFleb (S754_zero false) x = true.

End benchmark.

(** ** The row- and column-oriented sums over a linearised table *)

(** How a call of [calc_sum] ends: it returns a value; its [assert] fails and
    the process is aborted; it runs into undefined behaviour (an index outside
    the vector, an integer division by zero); or it is still running when the
    fuel given to the model is used up. *)
Inductive execution (A : Type) : Type :=
  | Returns (a : A)
  | Aborts
  | Undefined
  | Unfinished.

Arguments Returns {A} a.
Arguments Aborts {A}.
Arguments Undefined {A}.
Arguments Unfinished {A}.

Module col_oriented.

(** The two nested [for] loops of [col_oriented::calc_sum::operator()], one
    unit of fuel per evaluation of a loop condition.  [i] and [j] are
    [unsigned int] ([auto i = 0u]); [i * num_cols + j] is computed in
    [size_t]; [sum += x] is the addition of the element type [T]. *)
Fixpoint loop {T : Type} `{benchmark.Output T} (fuel : nat) (data : list T)
    (num_cols num_rows j i : Z) (sum : T) : execution T :=
  match fuel with
  | O => Unfinished
  | S fuel' =>
      if j <? num_cols then
        if i <? num_rows then
          match data !! Z.to_nat (to_size_t (to_size_t (i * num_cols) + j)) with
          | Some x =>
              loop fuel' data num_cols num_rows j (to_uint32 (i + 1)) (benchmark.plus sum x)
          | None => Undefined
          end
        else loop fuel' data num_cols num_rows (to_uint32 (j + 1)) 0 sum
      else Returns sum
  end.

(** [calc_sum{ num_cols }( data )] *)
Definition calc_sum {T : Type} `{benchmark.Output T} (fuel : nat) (NDEBUG : bool)
    (num_cols : Z) (data : list T) : execution T :=
  if negb NDEBUG && negb (0 <? Z.of_nat (length data)) then Aborts
  else
    let sum := benchmark.zero in
    if num_cols =? 0 then Undefined
    else
      let num_rows := Z.of_nat (length data) / num_cols in
      loop fuel data num_cols num_rows 0 0 sum.

End col_oriented.

Module row_oriented.

(** The two nested [for] loops of [row_oriented::calc_sum::operator()], which
    reads column [rand() % num_cols] of row [i]; [rand] is [std::rand], whose
    [int] result is converted to [size_t] for the remainder. *)
Fixpoint loop {S T : Type} `{benchmark.Output T} (rand : State S Z) (fuel : nat)
    (data : list T) (num_cols num_rows i j : Z) (sum : T) : State S (execution T) :=
  match fuel with
  | O => ret Unfinished
  | S fuel' =>
      if i <? num_rows then
        if j <? num_cols then
          r <- rand ;;
          match data !! Z.to_nat (to_size_t (to_size_t (i * num_cols)
                                              + to_size_t r mod num_cols)) with
          | Some x =>
              loop rand fuel' data num_cols num_rows i (to_uint32 (j + 1))
                (benchmark.plus sum x)
          | None => ret Undefined
          end
        else loop rand fuel' data num_cols num_rows (to_uint32 (i + 1)) 0 sum
      else ret (Returns sum)
  end.

(** [calc_sum{ num_cols }( data )] *)
Definition calc_sum {S T : Type} `{benchmark.Output T} (rand : State S Z) (fuel : nat)
    (NDEBUG : bool) (num_cols : Z) (data : list T) : State S (execution T) :=
  if negb NDEBUG && negb (0 <? Z.of_nat (length data)) then ret Aborts
  else
    let sum := benchmark.zero in
    if num_cols =? 0 then ret Undefined
    else
      let num_rows := Z.of_nat (length data) / num_cols in
      loop rand fuel data num_cols num_rows 0 0 sum.

End row_oriented.

(** ** Stand-ins for [<random>]

    Instances of [StdRandom] on which the programs can be run.  They stand in
    for the library; the properties below hold for every instance. *)

Module Doubles.

(** The recurrence of [std::minstd_rand0], started at 1; each draw advances the
    engine once and reads a value in the requested range off the new state. *)
Definition minstd_rand0 (x : Z) : Z := (16807 * x) mod 2147483647.

Definition draw_below (bound : Z) : State Z Z :=
  fun x => let x' := minstd_rand0 x in (x' mod bound, x').

Definition lcg_random : StdRandom := {|
  engine := Z;
  default_random_engine := 1;
  sex_distr := fun a b => x <- draw_below (b - a + 1) ;; ret (a + x);
  country_distr := fun a b => x <- draw_below (b - a + 1) ;; ret (a + x);
  age_distr := fun t _ => draw_below (t + 1);
  hst_distr := fun _ => x <- draw_below 100 ;; ret (x <? 68);
  income_distr := fun _ => draw_below 64;
|}.

(** Every age draw yields [age] and every income draw yields [income]; the
    engine state counts the draws made. *)
Definition fixed_random (age income : Z) : StdRandom := {|
  engine := nat;
  default_random_engine := 0%nat;
  sex_distr := fun _ _ g => (0, S g);
  country_distr := fun _ _ g => (0, S g);
  age_distr := fun _ _ g => (age, S g);
  hst_distr := fun _ g => (true, S g);
  income_distr := fun _ g => (income, S g);
|}.

(** The same library on an engine that also counts the draws made. *)
Definition counted {A : Type} (d : State Z A) : State (Z * nat) A :=
  fun '(g, count) => let (x, g') := d g in (x, (g', S count)).

Definition counting_random : StdRandom := {|
  engine := Z * nat;
  default_random_engine := (1, 0%nat);
  sex_distr := fun a b => counted (sex_distr (StdRandom := lcg_random) a b);
  country_distr := fun a b => counted (country_distr (StdRandom := lcg_random) a b);
  age_distr := fun t p => counted (age_distr (StdRandom := lcg_random) t p);
  hst_distr := fun p => counted (hst_distr (StdRandom := lcg_random) p);
  income_distr := fun p => counted (income_distr (StdRandom := lcg_random) p);
|}.

End Doubles.

(** ** Vocabulary of the properties *)

(** The mathematical sum of a sequence of counters, and the cumulative count of
    its first [k] buckets (up to, but excluding, index [k]). *)
Definition total (buckets : list Z) : Z := foldr Z.add 0 buckets.

Definition cumulative (buckets : list Z) (k : nat) : Z := total (take k buckets).

(** The state a callable is in after [i] invocations from state [s]. *)
Fixpoint after {S T : Type} (gen : State S T) (i : nat) (s : S) : S :=
  match i with
  | O => s
  | S i' => after gen i' (snd (gen s))
  end.

(** The engine states at which the income of individual [i] is drawn: in the
    AoS generator after [i] whole records and the age and country draws of
    record [i]; in the SoA generator after all sex and age draws and [i]
    income draws. *)
Definition aos_income_engine `{StdRandom} (i : nat) : engine :=
  snd ((_ <- age_distr 120 (25 # 100) ;; country_distr 0 255)
         (after aos.build_person i default_random_engine)).

Definition soa_income_engine `{StdRandom} (population_size i : nat) : engine :=
  after soa.draw_income i
    (after soa.draw_age population_size
       (after soa.draw_sex population_size default_random_engine)).

(** Floats that are neither negative nor NaN. *)
Inductive positive_or_zero : benchmark.duration -> Prop :=
  | poz_zero : positive_or_zero (S754_zero false)
  | poz_finite m e : positive_or_zero (S754_finite false m e)
  | poz_infinity : positive_or_zero (S754_infinity false).

(** The values of the successive invocations of [f] on the elements of a
    batch, first to last, and the state they leave. *)
Fixpoint results {S A B : Type} (f : A -> State S B) (l : list A) (s : S) : list B :=
  match l with
  | [] => []
  | v :: l' => fst (f v s) :: results f l' (snd (f v s))
  end.

Fixpoint state_after {S A B : Type} (f : A -> State S B) (l : list A) (s : S) : S :=
  match l with
  | [] => s
  | v :: l' => state_after f l' (snd (f v s))
  end.

(** The number of individuals of a given age. *)
Definition individuals_aged (k : Z) (ages : list Z) : Z :=
  Z.of_nat (length (filter (fun age => age = k) ages)).

(** The sum of [f 0], ..., [f (n - 1)]. *)
Fixpoint sum_below (n : nat) (f : nat -> Z) : Z :=
  match n with
  | O => 0
  | S k => sum_below k f + f k
  end.

(** The element of a table at a linear index, 0 past the end. *)
Definition cell (data : list Z) (k : nat) : Z := default 0 (data !! k).

(** The value of the [k]-th call of [std::rand] from state [s], as the
    [size_t] it is converted to. *)
Definition rand_value {S : Type} (rand : State S Z) (s : S) (k : nat) : Z :=
  to_size_t (fst (rand (after rand k s))).

(** The column read by the [k]-th call of [std::rand], for [C] columns. *)
Definition column_read {St : Type} (rand : State St Z) (C : nat) (s : St) (k : nat) : nat :=
  Z.to_nat (rand_value rand s k mod Z.of_nat C).

(** Two callables make the same draws when, from related states, they yield
    equal values and leave related states. *)
Definition same_draws {S1 S2 A : Type} (related : S1 -> S2 -> Prop)
    (d1 : State S1 A) (d2 : State S2 A) : Prop :=
  forall s1 s2, related s1 s2 ->
    fst (d1 s1) = fst (d2 s2) /\ related (snd (d1 s1)) (snd (d2 s2)).

(** Two runs whose random library behaves alike: the default-constructed
    engines are related, and related engines give every distribution the
    same draws. *)
Definition same_library (R1 R2 : StdRandom)
    (related : @engine R1 -> @engine R2 -> Prop) : Prop :=
  related (@default_random_engine R1) (@default_random_engine R2)
  /\ (forall a b, same_draws related (@sex_distr R1 a b) (@sex_distr R2 a b))
  /\ (forall a b, same_draws related (@country_distr R1 a b) (@country_distr R2 a b))
  /\ (forall t p, same_draws related (@age_distr R1 t p) (@age_distr R2 t p))
  /\ (forall p, same_draws related (@hst_distr R1 p) (@hst_distr R2 p))
  /\ (forall p, same_draws related (@income_distr R1 p) (@income_distr R2 p)).

(** * Part II: properties *)

(** ** Machine integers *)

Lemma to_uint8_range x : is_uint8 (to_uint8 x).
Proof. unfold is_uint8, to_uint8, wrap. apply Z.mod_pos_bound. lia. Qed.

Lemma to_uint32_range x : is_uint32 (to_uint32 x).
Proof. unfold is_uint32, to_uint32, wrap. apply Z.mod_pos_bound. lia. Qed.

Lemma to_size_t_range x : is_size_t (to_size_t x).
Proof. unfold is_size_t, to_size_t, wrap. apply Z.mod_pos_bound. lia. Qed.

Lemma to_uint32_id x : is_uint32 x -> to_uint32 x = x.
Proof. unfold is_uint32, to_uint32, wrap. intros. apply Z.mod_small. lia. Qed.

Lemma to_size_t_id x : is_size_t x -> to_size_t x = x.
Proof. unfold is_size_t, to_size_t, wrap. intros. apply Z.mod_small. lia. Qed.

Lemma to_uint32_add_l x y : to_uint32 (to_uint32 x + y) = to_uint32 (x + y).
Proof. unfold to_uint32, wrap. apply Zplus_mod_idemp_l. Qed.

Lemma to_uint32_le x : 0 <= x -> to_uint32 x <= x.
Proof. unfold to_uint32, wrap. intros. apply Z.mod_le; lia. Qed.

(** ** Sums of counters *)

Lemma total_app l1 l2 : total (l1 ++ l2) = total l1 + total l2.
Proof. unfold total. induction l1 as [|x l1 IH]; simpl; lia. Qed.

Lemma total_nonneg l : Forall (fun x => 0 <= x) l -> 0 <= total l.
Proof. unfold total. induction 1; simpl; lia. Qed.

Lemma is_size_t_nonneg l : Forall is_size_t l -> Forall (fun x => 0 <= x) l.
Proof. apply Forall_impl. unfold is_size_t. lia. Qed.

Lemma cumulative_all buckets k :
  (length buckets <= k)%nat -> cumulative buckets k = total buckets.
Proof. intros. unfold cumulative. now rewrite take_ge. Qed.

Lemma cumulative_S buckets k x :
  buckets !! k = Some x -> cumulative buckets (S k) = cumulative buckets k + x.
Proof.
  intros Hk. unfold cumulative.
  rewrite (take_S_r _ _ _ Hk), total_app. unfold total; simpl. lia.
Qed.

Lemma cumulative_mono buckets j k :
  Forall (fun x => 0 <= x) buckets -> (j <= k)%nat ->
  cumulative buckets j <= cumulative buckets k.
Proof.
  intros Hpos Hjk. unfold cumulative.
  replace k with (j + (k - j))%nat by lia.
  rewrite <- take_take_drop, total_app.
  assert (0 <= total (take (k - j) (drop j buckets))); [|lia].
  apply total_nonneg. apply Forall_take, Forall_drop, Hpos.
Qed.

Lemma cumulative_range buckets k :
  Forall (fun x => 0 <= x) buckets -> 0 <= cumulative buckets k <= total buckets.
Proof.
  intros Hpos. split.
  - apply total_nonneg, Forall_take, Hpos.
  - rewrite <- (cumulative_all buckets (length buckets)) by lia.
    destruct (decide (k <= length buckets)%nat).
    + now apply cumulative_mono.
    + rewrite !cumulative_all; lia.
Qed.

(** ** [find_median_bucket] *)

(** The assertion compares [n] with the sum reduced modulo [2 ^ 32]. *)
Lemma accumulate_0u_fold buckets a :
  fold_left (fun init x => to_uint32 (init + x)) buckets (to_uint32 a)
  = to_uint32 (a + total buckets).
Proof.
  revert a. induction buckets as [|x buckets IH]; intros a; simpl.
  - unfold total; simpl. now rewrite Z.add_0_r.
  - rewrite to_uint32_add_l, IH. unfold total; simpl. f_equal. lia.
Qed.

Lemma accumulate_0u_total buckets : accumulate_0u buckets = to_uint32 (total buckets).
Proof. unfold accumulate_0u. apply (accumulate_0u_fold buckets 0). Qed.

(** The scan, started at index [k] with the cumulative count of the first [k]
    buckets, ends within [length buckets - k + 1] iterations at the first
    index from [k] on whose cumulative count exceeds [n / 2], or at
    [buckets.size()] when there is none. *)
Lemma find_median_loop_scan buckets n :
  Z.of_nat (length buckets) < 2 ^ 32 ->
  (forall k, (k <= length buckets)%nat -> is_size_t (cumulative buckets k)) ->
  forall fuel k,
    (k <= length buckets)%nat -> (length buckets - k < fuel)%nat ->
    exists r,
      find_median_loop fuel buckets n (Z.of_nat k) (cumulative buckets k)
      = Some (Z.of_nat r)
      /\ (k <= r <= length buckets)%nat
      /\ (forall j, (k < j <= r)%nat -> cumulative buckets j <= n / 2)
      /\ ((r < length buckets)%nat -> n / 2 < cumulative buckets (S r)).
Proof.
  intros Hsize Hrange. induction fuel as [|fuel IH]; intros k Hk Hfuel; [lia|].
  simpl. destruct (Z.ltb_spec (Z.of_nat k) (Z.of_nat (length buckets))) as [Hlt|Hge].
  - destruct (lookup_lt_is_Some_2 buckets k) as [x Hx]; [lia|].
    rewrite Nat2Z.id, Hx; simpl.
    rewrite <- (cumulative_S _ _ _ Hx), to_size_t_id by (apply Hrange; lia).
    destruct (Z.ltb_spec (n / 2) (cumulative buckets (S k))) as [Hex|Hno].
    + exists k. split; [reflexivity|]. split; [lia|]. split; [intros j Hj; lia|].
      intros _. exact Hex.
    + replace (to_uint32 (Z.of_nat k + 1)) with (Z.of_nat (S k))
        by (rewrite to_uint32_id; unfold is_uint32; lia).
      destruct (IH (S k)) as (r & Hr & Hkr & Hbelow & Habove); [lia|lia|].
      exists r. split; [exact Hr|]. split; [lia|]. split; [|exact Habove].
      intros j Hj. destruct (decide (j = S k)) as [->|]; [exact Hno|].
      apply Hbelow. lia.
  - exists (length buckets). split; [reflexivity|]. split; [lia|].
    split; intros; lia.
Qed.

(** With assertions compiled in, a build whose 32-bit sum differs from [n]
    aborts, whatever the buckets hold. *)
Lemma find_median_bucket_assert fuel buckets n :
  accumulate_0u buckets <> n -> find_median_bucket fuel false buckets n = Some Aborted.
Proof.
  intros Hne. unfold find_median_bucket; simpl.
  destruct (Z.eqb_spec (accumulate_0u buckets) n); [contradiction|reflexivity].
Qed.

(** When the assertion does not fire, the outcome is that of the scan. *)
Lemma find_median_bucket_scan fuel NDEBUG buckets n :
  NDEBUG = true \/ accumulate_0u buckets = n ->
  find_median_bucket fuel NDEBUG buckets n
  = match find_median_loop fuel buckets n 0 0 with
    | Some i => Some (Returned i)
    | None => None
    end.
Proof.
  intros [->|Heq]; unfold find_median_bucket; simpl; [reflexivity|].
  rewrite Heq, Z.eqb_refl, andb_false_r. reflexivity.
Qed.

(** For a histogram whose counts sum to [n >= 1], the scan ends at the median
    bucket: the least index whose cumulative count exceeds [n / 2]. *)
Lemma find_median_loop_median fuel buckets n :
  Forall is_size_t buckets -> is_size_t n ->
  Z.of_nat (length buckets) < 2 ^ 32 -> (length buckets < fuel)%nat ->
  1 <= n -> total buckets = n ->
  exists b,
    find_median_loop fuel buckets n 0 0 = Some (Z.of_nat b)
    /\ (b < length buckets)%nat
    /\ n / 2 < cumulative buckets (S b)
    /\ cumulative buckets b <= n / 2
    /\ (forall b', n / 2 < cumulative buckets (S b') -> (b <= b')%nat).
Proof.
  intros Hwf Hn Hsize Hfuel Hpos Hsum.
  pose proof (is_size_t_nonneg _ Hwf) as Hnn.
  assert (Hrange : forall k, (k <= length buckets)%nat -> is_size_t (cumulative buckets k)).
  { intros k _. pose proof (cumulative_range buckets k Hnn). unfold is_size_t in *. lia. }
  destruct (find_median_loop_scan buckets n Hsize Hrange fuel 0%nat)
    as (r & Hr & Hkr & Hbelow & Habove); [lia|lia|].
  change (Z.of_nat 0) with 0 in Hr. change (cumulative buckets 0) with 0 in Hr.
  assert (Hlt : (r < length buckets)%nat).
  { destruct (decide (r < length buckets)%nat) as [|Hge]; [assumption|].
    assert (r = length buckets) as -> by lia.
    destruct (decide (length buckets = 0)%nat) as [H0|H0].
    - apply length_zero_iff_nil in H0. subst buckets. unfold total in Hsum; simpl in Hsum. lia.
    - specialize (Hbelow (length buckets) ltac:(lia)).
      rewrite cumulative_all in Hbelow by lia.
      assert (n / 2 < n) by (apply Z.div_lt; lia). lia. }
  exists r. split; [exact Hr|]. split; [assumption|]. split; [now apply Habove|]. split.
  - destruct r as [|r]; [change (cumulative buckets 0) with 0; apply Z.div_pos; lia|].
    apply Hbelow. lia.
  - intros b' Hb'. destruct (decide (b' < r)%nat) as [Hlt'|]; [|lia].
    specialize (Hbelow (S b') ltac:(lia)). lia.
Qed.

(** The assertion holds for a histogram that sums to [n < 2 ^ 32]. *)
Lemma accumulate_0u_exact buckets n :
  total buckets = n -> is_uint32 n -> accumulate_0u buckets = n.
Proof. intros Hsum Hn. rewrite accumulate_0u_total, Hsum. now apply to_uint32_id. Qed.

(** Sums below [2 ^ 32] are checked exactly: a mismatch aborts. *)
Lemma find_median_bucket_checks_small_sums fuel buckets n :
  Forall is_size_t buckets -> total buckets < 2 ^ 32 -> total buckets <> n ->
  find_median_bucket fuel false buckets n = Some Aborted.
Proof.
  intros Hwf Hsmall Hne. apply find_median_bucket_assert.
  rewrite accumulate_0u_total, to_uint32_id; [assumption|].
  pose proof (total_nonneg _ (is_size_t_nonneg _ Hwf)). unfold is_uint32. lia.
Qed.

(** When no cumulative count exceeds [n / 2], the scan runs to the end. *)
Lemma find_median_loop_sentinel fuel buckets n :
  Forall is_size_t buckets -> is_size_t n ->
  Z.of_nat (length buckets) < 2 ^ 32 -> (length buckets < fuel)%nat ->
  (forall k, (k <= length buckets)%nat -> cumulative buckets k <= n / 2) ->
  find_median_loop fuel buckets n 0 0 = Some (Z.of_nat (length buckets)).
Proof.
  intros Hwf Hn Hsize Hfuel Hnone.
  pose proof (is_size_t_nonneg _ Hwf) as Hnn.
  assert (Hhalf : n / 2 <= n) by (apply Z.div_le_upper_bound; unfold is_size_t in Hn; lia).
  assert (Hrange : forall k, (k <= length buckets)%nat -> is_size_t (cumulative buckets k)).
  { intros k Hk. pose proof (cumulative_range buckets k Hnn). specialize (Hnone k Hk).
    unfold is_size_t in *. lia. }
  destruct (find_median_loop_scan buckets n Hsize Hrange fuel 0%nat)
    as (r & Hr & Hkr & _ & Habove); [lia|lia|].
  change (Z.of_nat 0) with 0 in Hr. change (cumulative buckets 0) with 0 in Hr.
  destruct (decide (r < length buckets)%nat) as [Hlt|Hge].
  - specialize (Habove Hlt). specialize (Hnone (S r) ltac:(lia)). lia.
  - rewrite Hr. do 2 f_equal. lia.
Qed.

(** C1 (code defect): the histogram of [2 ^ 32] individuals who are all aged 0
    (256 buckets, the first holding [2 ^ 32]), with [n = 2 ^ 32], satisfies the
    sum precondition, and its median bucket is 0.  With assertions compiled
    in, [find_median_bucket] aborts on it: the sum is accumulated in an
    [unsigned int], where it is 0.  With [NDEBUG] the scan returns bucket 0. *)
Theorem find_median_bucket_aborts_on_large_population :
  total (2 ^ 32 :: replicate 255 0) = 2 ^ 32
  /\ cumulative (2 ^ 32 :: replicate 255 0) 0 <= 2 ^ 32 / 2
     < cumulative (2 ^ 32 :: replicate 255 0) 1
  /\ accumulate_0u (2 ^ 32 :: replicate 255 0) = 0
  /\ find_median_bucket 257 false (2 ^ 32 :: replicate 255 0) (2 ^ 32) = Some Aborted
  /\ find_median_bucket 257 true (2 ^ 32 :: replicate 255 0) (2 ^ 32) = Some (Returned 0).
Proof.
  split; [reflexivity|]. split; [split; vm_compute; congruence|].
  split; [reflexivity|]. split; vm_compute; reflexivity.
Qed.

(** C3 (code defect): a histogram of 256 buckets whose bucket 42 holds
    [2 ^ 32 + 1] does not sum to the claimed total [n = 1], yet the assertion
    lets it through, because the sum is reduced modulo [2 ^ 32], and bucket 42
    is returned. *)
Theorem find_median_bucket_misses_large_mismatch :
  total (replicate 42 0 ++ [2 ^ 32 + 1] ++ replicate 213 0) <> 1
  /\ accumulate_0u (replicate 42 0 ++ [2 ^ 32 + 1] ++ replicate 213 0) = 1
  /\ find_median_bucket 257 false (replicate 42 0 ++ [2 ^ 32 + 1] ++ replicate 213 0) 1
     = Some (Returned 42).
Proof. split; [|split]; vm_compute; congruence. Qed.

(** C4, the claim as stated fails: no cumulative count of [0; 0] exceeds
    [2 / 2], yet with assertions compiled in the call does not return the
    sentinel 2; it aborts. *)
Lemma find_median_bucket_sentinel_counterexample :
  cumulative [0; 0] 0 <= 2 / 2
  /\ cumulative [0; 0] 1 <= 2 / 2
  /\ cumulative [0; 0] 2 <= 2 / 2
  /\ find_median_bucket 3 false [0; 0] 2 = Some Aborted
  /\ find_median_bucket 3 false [0; 0] 2 <> Some (Returned (Z.of_nat (length [0; 0]))).
Proof. repeat split; vm_compute; congruence. Qed.

(** C4 (amended): for a histogram of fewer than [2 ^ 32] buckets and a total
    [n] such that no cumulative count exceeds [n / 2], [find_median_bucket]
    returns the sentinel [buckets.size()] exactly when the assertion does not
    stop it, that is when assertions are compiled out or [n = 0] (the all-zero
    histogram of an empty population); otherwise it aborts.  The sentinel
    differs from every valid bucket index. *)
Theorem find_median_bucket_sentinel fuel NDEBUG buckets n :
  Forall is_size_t buckets -> is_size_t n ->
  Z.of_nat (length buckets) < 2 ^ 32 -> (length buckets < fuel)%nat ->
  (forall k, (k <= length buckets)%nat -> cumulative buckets k <= n / 2) ->
  find_median_bucket fuel NDEBUG buckets n
  = (if NDEBUG || (n =? 0) then Some (Returned (Z.of_nat (length buckets)))
     else Some Aborted)
  /\ (forall i count, buckets !! i = Some count ->
        Z.of_nat i <> Z.of_nat (length buckets)).
Proof.
  intros Hwf Hn Hsize Hfuel Hnone. split.
  - pose proof (find_median_loop_sentinel fuel buckets n Hwf Hn Hsize Hfuel Hnone) as Hloop.
    pose proof (total_nonneg _ (is_size_t_nonneg _ Hwf)) as Htot.
    pose proof (Hnone (length buckets) ltac:(lia)) as Hall.
    rewrite cumulative_all in Hall by lia.
    destruct NDEBUG; simpl.
    + rewrite find_median_bucket_scan, Hloop by now left. reflexivity.
    + destruct (Z.eqb_spec n 0) as [->|Hn0].
      * rewrite find_median_bucket_scan, Hloop; [reflexivity|right].
        change (0 / 2) with 0 in Hall.
        rewrite accumulate_0u_total. replace (total buckets) with 0 by lia. reflexivity.
      * apply find_median_bucket_assert. rewrite accumulate_0u_total.
        pose proof (to_uint32_le (total buckets) Htot).
        assert (n / 2 < n) by (apply Z.div_lt; unfold is_size_t in Hn; lia). lia.
  - intros i count Hi. apply lookup_lt_Some in Hi. lia.
Qed.

(** The sentinel on [0; 0]: with [NDEBUG] for [n = 2], and in any build for
    [n = 0]. *)
Lemma find_median_bucket_sentinel_witness :
  find_median_bucket 3 true [0; 0] 2 = Some (Returned 2)
  /\ find_median_bucket 3 false [0; 0] 0 = Some (Returned 2).
Proof.
  split.
  - refine (proj1 (find_median_bucket_sentinel 3 true [0; 0] 2 _ _ _ _ _)).
    + repeat constructor; unfold is_size_t; lia.
    + unfold is_size_t; lia.
    + simpl; lia.
    + simpl; lia.
    + intros k Hk. destruct k as [|[|[|k]]]; vm_compute; congruence.
  - vm_compute. reflexivity.
Defined.

(** ** [std::generate] *)

Lemma bind_unfold {S A B : Type} (m : State S A) (k : A -> State S B) s :
  bind m k s = k (fst (m s)) (snd (m s)).
Proof. unfold bind. destruct (m s); reflexivity. Qed.

Lemma generate_cons {S T : Type} (t : T) v (gen : State S T) s :
  generate (t :: v) gen s
  = (fst (gen s) :: fst (generate v gen (snd (gen s))),
     snd (generate v gen (snd (gen s)))).
Proof. simpl. rewrite !bind_unfold. reflexivity. Qed.

Lemma generate_length {S T : Type} v (gen : State S T) s :
  length (fst (generate v gen s)) = length v.
Proof.
  revert s. induction v as [|t v IH]; intros s; [reflexivity|].
  rewrite generate_cons; simpl. now rewrite IH.
Qed.

Lemma generate_state {S T : Type} v (gen : State S T) s :
  snd (generate v gen s) = after gen (length v) s.
Proof.
  revert s. induction v as [|t v IH]; intros s; [reflexivity|].
  rewrite generate_cons; simpl. apply IH.
Qed.

Lemma generate_lookup {S T : Type} v (gen : State S T) s i :
  (i < length v)%nat ->
  fst (generate v gen s) !! i = Some (fst (gen (after gen i s))).
Proof.
  revert s i. induction v as [|t v IH]; intros s i Hi; simpl in Hi; [lia|].
  rewrite generate_cons; simpl. destruct i as [|i]; [reflexivity|].
  simpl. apply IH. lia.
Qed.

Lemma generate_Forall {S T : Type} (P : T -> Prop) v (gen : State S T) s :
  (forall s', P (fst (gen s'))) -> Forall P (fst (generate v gen s)).
Proof.
  intros HP. revert s. induction v as [|t v IH]; intros s; [constructor|].
  rewrite generate_cons; simpl. constructor; [apply HP|apply IH].
Qed.

Lemma length_vector {T : Type} `{ValueInit T} size : length (vector (T := T) size) = size.
Proof. unfold vector. apply length_replicate. Qed.

(** ** The census generators *)

Section Census.
Context `{StdRandom}.

Lemma build_person_unfold g :
  fst (aos.build_person g)
  = let g1 := snd (age_distr 120 (25 # 100) g) in
    let g2 := snd (country_distr 0 255 g1) in
    let g3 := snd (income_distr (5 # 10) g2) in
    let g4 := snd (hst_distr (68 # 100) g3) in
    {| aos.age := to_uint8 (fst (age_distr 120 (25 # 100) g));
       aos.country := to_uint8 (fst (country_distr 0 255 g1));
       aos.income := to_uint32 (to_uint32 (fst (income_distr (5 # 10) g2)) + 10000);
       aos.hst := if fst (hst_distr (68 # 100) g3) then owner else renter;
       aos.sex := if to_uint32 (fst (sex_distr 0 1 g4)) =? 0 then male else female |}.
Proof. unfold aos.build_person. rewrite !bind_unfold. reflexivity. Qed.

Lemma aos_census_lookup n i :
  (i < n)%nat ->
  aos.create_random_census n !! i
  = Some (fst (aos.build_person (after aos.build_person i default_random_engine))).
Proof.
  intros Hi. unfold aos.create_random_census. apply generate_lookup.
  now rewrite length_vector.
Qed.

Lemma soa_census_fields n :
  let g0 := default_random_engine in
  let g1 := after soa.draw_sex n g0 in
  let g2 := after soa.draw_age n g1 in
  let g3 := after soa.draw_income n g2 in
  let g4 := after soa.draw_country n g3 in
  soa.create_random_census n
  = {| soa.sex := fst (generate (vector n) soa.draw_sex g0);
       soa.age := fst (generate (vector n) soa.draw_age g1);
       soa.income := fst (generate (vector n) soa.draw_income g2);
       soa.country := fst (generate (vector n) soa.draw_country g3);
       soa.hst := fst (generate (vector n) soa.draw_hst g4) |}.
Proof.
  unfold soa.create_random_census. rewrite !bind_unfold. unfold ret; simpl.
  rewrite !generate_state, !length_vector. reflexivity.
Qed.

Lemma draw_income_unfold g :
  fst (soa.draw_income g) = to_uint32 (fst (income_distr (5 # 10) g)).
Proof. unfold soa.draw_income. rewrite bind_unfold. reflexivity. Qed.

Lemma draw_age_unfold g :
  fst (soa.draw_age g) = to_uint8 (fst (age_distr 120 (25 # 100) g)).
Proof. unfold soa.draw_age. rewrite bind_unfold. reflexivity. Qed.

Lemma create_random_census_length_aux n : length (aos.create_random_census n) = n.
Proof. unfold aos.create_random_census. now rewrite generate_length, length_vector. Qed.

End Census.

(** C5: for every population size [n], zero included, the AoS generator
    returns [n] person records and the SoA generator returns five vectors
    (sex, age, income, country, hst) of length [n] each. *)
Theorem create_random_census_length `{StdRandom} (n : nat) :
  length (aos.create_random_census n) = n
  /\ length (soa.sex (soa.create_random_census n)) = n
  /\ length (soa.age (soa.create_random_census n)) = n
  /\ length (soa.income (soa.create_random_census n)) = n
  /\ length (soa.country (soa.create_random_census n)) = n
  /\ length (soa.hst (soa.create_random_census n)) = n.
Proof.
  split.
  - apply create_random_census_length_aux.
  - rewrite soa_census_fields; simpl.
    rewrite !generate_length, !length_vector. tauto.
Qed.

(** The income of individual [i] in the AoS census is the geometric draw made
    for it plus 10000, computed in 32-bit unsigned arithmetic, which is the
    exact sum whenever that sum is below [2 ^ 32].  The income of individual
    [i] in the SoA census is the raw geometric draw. *)
Theorem census_income `{StdRandom} (n i : nat) :
  (forall p, aos.create_random_census n !! i = Some p ->
     let draw := to_uint32 (fst (income_distr (5 # 10) (aos_income_engine i))) in
     aos.income p = to_uint32 (draw + 10000)
     /\ (draw + 10000 < 2 ^ 32 -> aos.income p = draw + 10000 /\ 10000 <= aos.income p))
  /\ (forall x, soa.income (soa.create_random_census n) !! i = Some x ->
        let draw := to_uint32 (fst (income_distr (5 # 10) (soa_income_engine n i))) in
        x = draw /\ (draw = 0 -> x = 0)).
Proof.
  split.
  - intros p Hp. assert (Hi : (i < n)%nat).
    { apply lookup_lt_Some in Hp. pose proof (create_random_census_length_aux n). lia. }
    rewrite aos_census_lookup in Hp by exact Hi. injection Hp as <-.
    rewrite build_person_unfold. cbv zeta. simpl aos.income.
    unfold aos_income_engine. rewrite bind_unfold.
    set (draw := to_uint32 (fst (income_distr _ _))).
    split; [reflexivity|]. intros Hsmall.
    pose proof (to_uint32_range (fst (income_distr (5 # 10)
      (snd (country_distr 0 255 (snd (age_distr 120 (25 # 100)
        (after aos.build_person i default_random_engine)))))))) as Hd.
    fold draw in Hd. unfold is_uint32 in Hd.
    rewrite to_uint32_id by (unfold is_uint32; lia). lia.
  - intros x Hx. rewrite soa_census_fields in Hx; simpl in Hx.
    assert (Hi : (i < n)%nat).
    { apply lookup_lt_Some in Hx. rewrite generate_length, length_vector in Hx. exact Hx. }
    rewrite generate_lookup in Hx by now rewrite length_vector.
    injection Hx as <-. unfold soa_income_engine.
    rewrite draw_income_unfold. split; [reflexivity|]. intros Hzero. exact Hzero.
Qed.

(** C6: when the geometric draws leave room for the offset (they are below
    [2 ^ 32 - 10000]; the library's draws for [p = 0.5] are far below), the
    income of every individual of the AoS census is the geometric draw made
    for it plus 10000, hence at least 10000, whereas the income of every
    individual of the SoA census is the raw geometric draw, with no offset;
    a draw of 0 gives an SoA income of 0 (and an AoS income of 10000). *)
Theorem census_income_offset `{StdRandom} (n i : nat) :
  (forall g, 0 <= fst (income_distr (5 # 10) g) < 2 ^ 32 - 10000) ->
  (forall p, aos.create_random_census n !! i = Some p ->
     let draw := fst (income_distr (5 # 10) (aos_income_engine i)) in
     aos.income p = draw + 10000
     /\ 10000 <= aos.income p
     /\ (draw = 0 -> aos.income p = 10000))
  /\ (forall x, soa.income (soa.create_random_census n) !! i = Some x ->
        let draw := fst (income_distr (5 # 10) (soa_income_engine n i)) in
        x = draw /\ (draw = 0 -> x = 0)).
Proof.
  intros Hrange. destruct (census_income n i) as (Haos & Hsoa). split.
  - intros p Hp. cbv zeta.
    pose proof (Hrange (aos_income_engine i)) as Hd.
    destruct (Haos p Hp) as (_ & Hexact). cbv zeta in Hexact.
    rewrite (to_uint32_id (fst (income_distr (5 # 10) (aos_income_engine i)))) in Hexact
      by (unfold is_uint32; lia).
    destruct (Hexact ltac:(lia)) as (Hval & Hmin).
    split; [exact Hval|]. split; [exact Hmin|]. intros Hzero. lia.
  - intros x Hx. cbv zeta.
    pose proof (Hrange (soa_income_engine n i)) as Hd.
    destruct (Hsoa x Hx) as (Hval & _). cbv zeta in Hval.
    rewrite to_uint32_id in Hval by (unfold is_uint32; lia).
    split; [exact Hval|]. intros Hzero. lia.
Qed.

Lemma lcg_income_range g :
  0 <= fst (income_distr (StdRandom := Doubles.lcg_random) (5 # 10) g) < 2 ^ 32 - 10000.
Proof.
  simpl. unfold Doubles.draw_below. simpl.
  pose proof (Z.mod_pos_bound (Doubles.minstd_rand0 g) 64 ltac:(lia)). lia.
Qed.

(** The second individual of a census of three, on the stand-in library. *)
Lemma census_income_offset_witness :
  (forall p, aos.create_random_census (H := Doubles.lcg_random) 3 !! 1%nat = Some p ->
     10000 <= aos.income p)
  /\ (forall x, soa.income (soa.create_random_census (H := Doubles.lcg_random) 3) !! 1%nat
                = Some x ->
        x = fst (income_distr (StdRandom := Doubles.lcg_random) (5 # 10)
                   (soa_income_engine (H := Doubles.lcg_random) 3 1))).
Proof.
  destruct (census_income_offset (H := Doubles.lcg_random) 3 1 lcg_income_range)
    as (Haos & Hsoa).
  split.
  - intros p Hp. apply (Haos p Hp).
  - intros x Hx. apply (Hsoa x Hx).
Defined.

(** ** The age histogram *)

Lemma total_insert buckets i count x :
  buckets !! i = Some count -> total (<[i:=x]> buckets) = total buckets - count + x.
Proof.
  revert i. induction buckets as [|y buckets IH]; intros i Hi; [discriminate|].
  destruct i as [|i]; simpl in *.
  - injection Hi as ->. unfold total; simpl. lia.
  - specialize (IH i Hi). unfold total in *; simpl. lia.
Qed.

Lemma lookup_le_total buckets i count :
  Forall (fun x => 0 <= x) buckets -> buckets !! i = Some count -> count <= total buckets.
Proof.
  intros Hnn Hi. rewrite <- (take_drop_middle _ _ _ Hi), !total_app.
  apply Forall_take with (n := i) in Hnn as Hl.
  apply Forall_drop with (n := S i) in Hnn as Hr.
  apply total_nonneg in Hl, Hr. unfold total at 2; simpl. fold (total (drop (S i) buckets)). lia.
Qed.

(** An increment at an index below the number of buckets is defined. *)
Lemma increment_in_bounds buckets index :
  0 <= index < Z.of_nat (length buckets) ->
  exists count,
    buckets !! Z.to_nat index = Some count
    /\ increment buckets index = Some (<[Z.to_nat index := to_size_t (count + 1)]> buckets).
Proof.
  intros Hidx. destruct (lookup_lt_is_Some_2 buckets (Z.to_nat index)) as [count Hc]; [lia|].
  exists count. split; [exact Hc|]. unfold increment.
  destruct (decide (0 <= index)); [|lia]. now rewrite Hc.
Qed.

(** An increment at any other index is undefined behaviour. *)
Lemma increment_out_of_bounds buckets index :
  ~ 0 <= index < Z.of_nat (length buckets) -> increment buckets index = None.
Proof.
  intros Hidx. unfold increment. destruct (decide (0 <= index)); [|reflexivity].
  rewrite lookup_ge_None_2; [reflexivity|lia].
Qed.

Lemma bucketise_loop_in_bounds ages buckets :
  Forall (fun age => 0 <= age < Z.of_nat (length buckets)) ages ->
  exists buckets',
    soa.bucketise_loop ages buckets = Some buckets' /\ length buckets' = length buckets.
Proof.
  revert buckets. induction ages as [|age ages IH]; intros buckets Hages; simpl.
  - now exists buckets.
  - inversion Hages as [|? ? Hage Hrest]; subst.
    destruct (increment_in_bounds buckets age Hage) as (count & _ & ->).
    destruct (IH (<[Z.to_nat age := to_size_t (count + 1)]> buckets)) as (b' & Hb' & Hlen).
    + now rewrite length_insert.
    + exists b'. split; [exact Hb'|]. now rewrite Hlen, length_insert.
Qed.

(** As long as the counters cannot overflow, every individual adds one to the
    sum of the histogram. *)
Lemma bucketise_loop_total ages buckets :
  Forall is_size_t buckets ->
  Forall (fun age => 0 <= age < Z.of_nat (length buckets)) ages ->
  total buckets + Z.of_nat (length ages) < 2 ^ 64 ->
  exists buckets',
    soa.bucketise_loop ages buckets = Some buckets'
    /\ length buckets' = length buckets
    /\ Forall is_size_t buckets'
    /\ total buckets' = total buckets + Z.of_nat (length ages).
Proof.
  revert buckets. induction ages as [|age ages IH]; intros buckets Hwf Hages Hroom.
  - exists buckets. simpl. repeat split; [assumption|lia].
  - inversion Hages as [|? ? Hage Hrest]; subst.
    destruct (increment_in_bounds buckets age Hage) as (count & Hcount & Hinc).
    pose proof (lookup_le_total _ _ _ (is_size_t_nonneg _ Hwf) Hcount) as Hle.
    assert (Hc : is_size_t count) by (eapply Forall_lookup_1; eassumption).
    assert (Hid : to_size_t (count + 1) = count + 1).
    { apply to_size_t_id. unfold is_size_t in *. simpl length in Hroom. lia. }
    destruct (IH (<[Z.to_nat age := to_size_t (count + 1)]> buckets)) as (b' & Hb' & Hlen & Hwf' & Htot).
    + apply Forall_insert; [assumption|apply to_size_t_range].
    + now rewrite length_insert.
    + rewrite (total_insert _ _ _ _ Hcount), Hid. simpl length in Hroom. lia.
    + exists b'. simpl. rewrite Hinc. split; [exact Hb'|].
      split; [now rewrite Hlen, length_insert|]. split; [exact Hwf'|].
      rewrite Htot, (total_insert _ _ _ _ Hcount), Hid. simpl length. lia.
Qed.

Lemma aos_bucketise_loop_ages population_data buckets :
  aos.bucketise_loop population_data buckets
  = soa.bucketise_loop (map aos.age population_data) buckets.
Proof.
  revert buckets. induction population_data as [|person rest IH]; intros buckets; simpl.
  - reflexivity.
  - destruct (increment buckets (aos.age person)); [apply IH|reflexivity].
Qed.

Lemma total_replicate_0 k : total (replicate k 0) = 0.
Proof. induction k as [|k IH]; [reflexivity|]. unfold total in *; simpl. lia. Qed.

Lemma age_bound_value : age_bound = 2 ^ 8.
Proof. reflexivity. Qed.

(** C2: for a population of size [n] in either layout, the 256-bucket histogram
    built by [bucketise_by_age] sums to exactly [n].  (Ages are [uint8_t]
    values and the population size is a [size_t], as their types say.) *)
Theorem bucketise_by_age_total (aos_population : aos.census) (soa_population : soa.census) :
  Forall (fun person => is_uint8 (aos.age person)) aos_population ->
  is_size_t (Z.of_nat (length aos_population)) ->
  Forall is_uint8 (soa.age soa_population) ->
  is_size_t (Z.of_nat (length (soa.age soa_population))) ->
  (exists buckets,
     aos.bucketise_by_age 256 aos_population = Some buckets
     /\ length buckets = 256%nat
     /\ total buckets = Z.of_nat (length aos_population))
  /\ (exists buckets,
        soa.bucketise_by_age 256 soa_population = Some buckets
        /\ length buckets = 256%nat
        /\ total buckets = Z.of_nat (length (soa.age soa_population))).
Proof.
  intros Haos Hn Hsoa Hm.
  assert (Hzero : Forall is_size_t (replicate 256 0)).
  { apply Forall_replicate. unfold is_size_t. lia. }
  split.
  - unfold aos.bucketise_by_age. rewrite aos_bucketise_loop_ages.
    destruct (bucketise_loop_total (map aos.age aos_population) (replicate 256 0))
      as (b & Hb & Hlen & _ & Htot); [exact Hzero| | |].
    + rewrite length_replicate. apply Forall_map. revert Haos. apply Forall_impl.
      unfold is_uint8. simpl. lia.
    + rewrite total_replicate_0, length_map. unfold is_size_t in Hn. lia.
    + exists b. rewrite Hb, Hlen, Htot, length_replicate, total_replicate_0, length_map.
      split; [reflexivity|]. split; [reflexivity|]. lia.
  - unfold soa.bucketise_by_age.
    destruct (bucketise_loop_total (soa.age soa_population) (replicate 256 0))
      as (b & Hb & Hlen & _ & Htot); [exact Hzero| | |].
    + rewrite length_replicate. revert Hsoa. apply Forall_impl. unfold is_uint8. lia.
    + rewrite total_replicate_0. unfold is_size_t in Hm. lia.
    + exists b. rewrite Hb, Hlen, Htot, length_replicate, total_replicate_0.
      split; [reflexivity|]. split; [reflexivity|]. lia.
Qed.

(** Two records and a three-element census, bucketed. *)
Lemma bucketise_by_age_total_witness :
  (exists buckets,
     aos.bucketise_by_age 256
       [ {| aos.age := 42; aos.country := 1; aos.income := 10003;
            aos.hst := owner; aos.sex := female |};
         {| aos.age := 7; aos.country := 2; aos.income := 10000;
            aos.hst := renter; aos.sex := male |} ] = Some buckets
     /\ length buckets = 256%nat
     /\ total buckets = 2)
  /\ (exists buckets,
        soa.bucketise_by_age 256
          {| soa.sex := [female; male; male]; soa.age := [42; 7; 42];
             soa.income := [3; 0; 1]; soa.country := [1; 2; 3];
             soa.hst := [owner; renter; owner] |} = Some buckets
        /\ length buckets = 256%nat
        /\ total buckets = 3).
Proof.
  apply (bucketise_by_age_total
           [ {| aos.age := 42; aos.country := 1; aos.income := 10003;
                aos.hst := owner; aos.sex := female |};
             {| aos.age := 7; aos.country := 2; aos.income := 10000;
                aos.hst := renter; aos.sex := male |} ]
           {| soa.sex := [female; male; male]; soa.age := [42; 7; 42];
              soa.income := [3; 0; 1]; soa.country := [1; 2; 3];
              soa.hst := [owner; renter; owner] |}).
  - repeat constructor; simpl; lia.
  - unfold is_size_t; simpl; lia.
  - repeat constructor; simpl; lia.
  - unfold is_size_t; simpl; lia.
Defined.

(** An age outside the histogram makes bucketing undefined. *)
Lemma bucketise_loop_out_of_bounds ages buckets :
  Exists (fun age => ~ 0 <= age < Z.of_nat (length buckets)) ages ->
  soa.bucketise_loop ages buckets = None.
Proof.
  revert buckets. induction ages as [|age ages IH]; intros buckets Hex; simpl.
  - inversion Hex.
  - destruct (decide (0 <= age < Z.of_nat (length buckets))) as [Hin|Hout].
    + destruct (increment_in_bounds buckets age Hin) as (count & _ & ->).
      apply IH. rewrite length_insert.
      inversion Hex as [? ? Hhere|? ? Hlater]; [contradiction|assumption].
    + now rewrite increment_out_of_bounds.
Qed.

(** C10: every age the census generators store is a value of [Age], between 0
    and 255, whatever the engine and the binomial distribution do; the
    histogram of [main] has [1u << 8 = 256] buckets, so every increment of
    [bucketise_by_age] is in bounds and bucketing is defined, for both
    layouts. *)
Theorem census_ages_in_bounds `{StdRandom} (n : nat) :
  Forall is_uint8 (soa.age (soa.create_random_census n))
  /\ Forall (fun person => is_uint8 (aos.age person)) (aos.create_random_census n)
  /\ age_bound = 2 ^ 8
  /\ is_Some (soa.bucketise_by_age (Z.to_nat age_bound) (soa.create_random_census n))
  /\ is_Some (aos.bucketise_by_age (Z.to_nat age_bound) (aos.create_random_census n)).
Proof.
  assert (Hsoa : Forall is_uint8 (soa.age (soa.create_random_census n))).
  { rewrite soa_census_fields; simpl. apply generate_Forall.
    intros g. rewrite draw_age_unfold. apply to_uint8_range. }
  assert (Haos : Forall (fun person => is_uint8 (aos.age person)) (aos.create_random_census n)).
  { unfold aos.create_random_census. apply generate_Forall.
    intros g. rewrite build_person_unfold. apply to_uint8_range. }
  split; [exact Hsoa|]. split; [exact Haos|]. split; [reflexivity|].
  change (Z.to_nat age_bound) with 256%nat. split.
  - unfold soa.bucketise_by_age.
    destruct (bucketise_loop_in_bounds (soa.age (soa.create_random_census n)) (replicate 256 0))
      as (b & -> & _); [|now exists b].
    rewrite length_replicate. revert Hsoa. apply Forall_impl. unfold is_uint8. lia.
  - unfold aos.bucketise_by_age. rewrite aos_bucketise_loop_ages.
    destruct (bucketise_loop_in_bounds (map aos.age (aos.create_random_census n)) (replicate 256 0))
      as (b & -> & _); [|now exists b].
    rewrite length_replicate. apply Forall_map. revert Haos. apply Forall_impl.
    unfold is_uint8. simpl. lia.
Qed.

(** ** [build_rand_vec] *)

(** C8: [build_rand_vec( gen, size )] returns [size] elements, element [i]
    being the result of the [i]-th invocation of [gen] (counting from 0); for
    size 0 it is empty, and for a [gen] that always returns [c] it is [size]
    copies of [c]. *)
Theorem build_rand_vec_spec {S T : Type} `{ValueInit T}
    (gen : State S T) (size : nat) (s : S) :
  length (fst (benchmark.build_rand_vec gen size s)) = size
  /\ (forall i, (i < size)%nat ->
        fst (benchmark.build_rand_vec gen size s) !! i = Some (fst (gen (after gen i s))))
  /\ snd (benchmark.build_rand_vec gen size s) = after gen size s
  /\ fst (benchmark.build_rand_vec gen 0 s) = []
  /\ (forall c, (forall s', fst (gen s') = c) ->
        fst (benchmark.build_rand_vec gen size s) = replicate size c).
Proof.
  unfold benchmark.build_rand_vec.
  split; [now rewrite generate_length, length_vector|].
  split; [intros i Hi; apply generate_lookup; now rewrite length_vector|].
  split; [now rewrite generate_state, length_vector|].
  split; [reflexivity|].
  intros c Hc. apply list_eq. intros i.
  destruct (decide (i < size)%nat) as [Hi|Hi].
  - rewrite generate_lookup by now rewrite length_vector.
    rewrite Hc. symmetry. now apply lookup_replicate_2.
  - rewrite !lookup_ge_None_2; [reflexivity| |].
    + rewrite length_replicate. lia.
    + rewrite generate_length, length_vector. lia.
Qed.

(** ** binary32 arithmetic *)

Lemma digits2_pos_bounds p :
  2 ^ (Zpos (digits2_pos p) - 1) <= Zpos p < 2 ^ Zpos (digits2_pos p).
Proof.
  induction p as [p IH|p IH|]; simpl digits2_pos.
  - rewrite Pos2Z.inj_succ. replace (Z.succ (Zpos (digits2_pos p)) - 1) with (Z.succ (Zpos (digits2_pos p) - 1)) by lia.
    rewrite !Z.pow_succ_r by lia. lia.
  - rewrite Pos2Z.inj_succ. replace (Z.succ (Zpos (digits2_pos p)) - 1) with (Z.succ (Zpos (digits2_pos p) - 1)) by lia.
    rewrite !Z.pow_succ_r by lia. lia.
  - simpl. lia.
Qed.

Lemma Zdigits2_bounds m :
  0 < m -> 1 <= Zdigits2 m /\ 2 ^ (Zdigits2 m - 1) <= m < 2 ^ Zdigits2 m.
Proof.
  destruct m as [|p|p]; try lia. intros _. simpl Zdigits2.
  split; [lia|apply digits2_pos_bounds].
Qed.

Lemma Zdigits2_le m k : 0 < m -> 0 <= k -> m < 2 ^ k -> Zdigits2 m <= k.
Proof.
  intros Hm Hk Hlt. destruct (Zdigits2_bounds m Hm) as (Hd & Hlo & _).
  destruct (Z.le_gt_cases (Zdigits2 m) k) as [|Hgt]; [assumption|].
  assert (2 ^ k <= 2 ^ (Zdigits2 m - 1)) by (apply Z.pow_le_mono_r; lia). lia.
Qed.

Lemma shr_1_m mrs : 0 <= shr_m mrs -> shr_m (shr_1 mrs) = shr_m mrs / 2.
Proof.
  destruct mrs as [m r s]. simpl. intros Hm.
  destruct m as [|[p|p|]|p]; simpl; try lia; rewrite <- Z.div2_div; reflexivity.
Qed.

Lemma pow2_xO p : 2 ^ Zpos p~0 = 2 ^ Zpos p * 2 ^ Zpos p.
Proof.
  rewrite (Pos2Z.inj_xO p). replace (2 * Zpos p) with (Zpos p + Zpos p) by lia.
  apply Z.pow_add_r; lia.
Qed.

Lemma pow2_xI p : 2 ^ Zpos p~1 = 2 * (2 ^ Zpos p * 2 ^ Zpos p).
Proof.
  rewrite (Pos2Z.inj_xI p). replace (2 * Zpos p + 1) with (Z.succ (Zpos p + Zpos p)) by lia.
  rewrite Z.pow_succ_r, Z.pow_add_r by lia. reflexivity.
Qed.

Lemma iter_shr_1_m p mrs :
  0 <= shr_m mrs -> shr_m (SpecFloat.iter_pos shr_1 p mrs) = shr_m mrs / 2 ^ Zpos p.
Proof.
  revert mrs. induction p as [p IH|p IH|]; intros mrs Hm; simpl SpecFloat.iter_pos.
  - assert (H1 : 0 <= shr_m (shr_1 mrs)) by (rewrite shr_1_m by assumption; apply Z.div_pos; lia).
    assert (H2 : 0 <= shr_m (SpecFloat.iter_pos shr_1 p (shr_1 mrs))).
    { rewrite IH by assumption. apply Z.div_pos; [assumption|]. apply Z.pow_pos_nonneg; lia. }
    rewrite IH, IH, shr_1_m by assumption.
    assert (0 < 2 ^ Zpos p) by (apply Z.pow_pos_nonneg; lia).
    rewrite !Z.div_div by lia. rewrite pow2_xI. f_equal.
  - assert (H2 : 0 <= shr_m (SpecFloat.iter_pos shr_1 p mrs)).
    { rewrite IH by assumption. apply Z.div_pos; [assumption|]. apply Z.pow_pos_nonneg; lia. }
    rewrite IH, IH by assumption.
    assert (0 < 2 ^ Zpos p) by (apply Z.pow_pos_nonneg; lia).
    rewrite !Z.div_div by lia. rewrite pow2_xO. reflexivity.
  - rewrite shr_1_m by assumption. reflexivity.
Qed.

Lemma shr_m_of_loc m l : shr_m (shr_record_of_loc m l) = m.
Proof. destruct l as [|[]]; reflexivity. Qed.

(** The exponent below which binary32 mantissas are not shifted further. *)
Lemma fexp_binary32 e : fexp benchmark.float_prec benchmark.float_emax e = Z.max (e - 24) (-149).
Proof. reflexivity. Qed.

(** Aligning a positive mantissa to the format: it is kept when it has at most
    24 digits, and loses its low digits otherwise. *)
Lemma shr_fexp_spec m e l mrs e' :
  0 < m -> -149 <= e ->
  shr_fexp benchmark.float_prec benchmark.float_emax m e l = (mrs, e') ->
  (Zdigits2 m <= 24 /\ shr_m mrs = m /\ e' = e)
  \/ (24 < Zdigits2 m /\ shr_m mrs = m / 2 ^ (Zdigits2 m - 24) /\ e' = e + (Zdigits2 m - 24)).
Proof.
  intros Hm He. unfold shr_fexp, shr. rewrite fexp_binary32.
  destruct (Zdigits2_bounds m Hm) as (Hd & _).
  destruct (Z.max (Zdigits2 m + e - 24) (-149) - e) as [|p|p] eqn:Hn;
    intros [= <- <-].
  - left. rewrite shr_m_of_loc. lia.
  - right. rewrite iter_shr_1_m by (rewrite shr_m_of_loc; lia).
    rewrite shr_m_of_loc. replace (Zdigits2 m - 24) with (Zpos p) by lia.
    split; [lia|]. split; [reflexivity|lia].
  - left. rewrite shr_m_of_loc. lia.
Qed.

Lemma shr_fexp_nonneg m e l :
  0 <= m -> 0 <= shr_m (fst (shr_fexp benchmark.float_prec benchmark.float_emax m e l)).
Proof.
  intros Hm. unfold shr_fexp, shr.
  destruct (fexp _ _ _ - e) as [|p|p]; simpl.
  - rewrite shr_m_of_loc. exact Hm.
  - rewrite iter_shr_1_m by (rewrite shr_m_of_loc; exact Hm).
    rewrite shr_m_of_loc. apply Z.div_pos; [exact Hm|]. apply Z.pow_pos_nonneg; lia.
  - rewrite shr_m_of_loc. exact Hm.
Qed.

Lemma round_nearest_even_bounds m l :
  m <= round_nearest_even m l <= m + 1.
Proof. unfold round_nearest_even. destruct l as [|[]]; try destruct (Z.even m); lia. Qed.

Lemma positive_or_zero_non_negative x : positive_or_zero x -> benchmark.non_negative x.
Proof. destruct 1; reflexivity. Qed.

(** Rounding a mantissa that is not negative gives a float that is not
    negative. *)
Lemma binary_round_aux_sign mx ex lx :
  0 <= mx -> positive_or_zero (binary_round_aux benchmark.float_prec benchmark.float_emax false mx ex lx).
Proof.
  intros Hm. unfold binary_round_aux.
  pose proof (shr_fexp_nonneg mx ex lx Hm) as H1.
  destruct (shr_fexp benchmark.float_prec benchmark.float_emax mx ex lx) as [mrs' e']. simpl in H1.
  pose proof (round_nearest_even_bounds (shr_m mrs') (loc_of_shr_record mrs')) as Hr.
  pose proof (shr_fexp_nonneg (round_nearest_even (shr_m mrs') (loc_of_shr_record mrs'))
                e' loc_Exact ltac:(lia)) as H2.
  destruct (shr_fexp benchmark.float_prec benchmark.float_emax _ e' loc_Exact) as [mrs'' e'']. simpl in H2.
  destruct (shr_m mrs'') as [|m|m]; [constructor| |lia].
  destruct (e'' <=? benchmark.float_emax - benchmark.float_prec); constructor.
Qed.

(** Rounding a positive mantissa whose exponent is in range gives a finite
    positive float. *)
Lemma binary_round_aux_finite mx ex lx :
  0 < mx -> -149 <= ex <= 0 -> Zdigits2 mx + ex <= 64 ->
  exists m e, binary_round_aux benchmark.float_prec benchmark.float_emax false mx ex lx = S754_finite false m e.
Proof.
  intros Hm He Hd. unfold binary_round_aux.
  destruct (Zdigits2_bounds mx Hm) as (Hd1 & Hlo & Hhi).
  destruct (shr_fexp benchmark.float_prec benchmark.float_emax mx ex lx) as [mrs' e'] eqn:H1.
  apply shr_fexp_spec in H1; [|assumption|lia].
  set (m2 := round_nearest_even (shr_m mrs') (loc_of_shr_record mrs')).
  pose proof (round_nearest_even_bounds (shr_m mrs') (loc_of_shr_record mrs')) as Hr.
  fold m2 in Hr.
  assert (Hm1 : 0 < shr_m mrs' < 2 ^ 24 /\ -149 <= e' <= 40).
  { destruct H1 as [(Hle & -> & ->)|(Hgt & -> & ->)].
    - split; [|lia]. split; [lia|].
      apply Z.lt_le_trans with (2 ^ Zdigits2 mx); [lia|]. apply Z.pow_le_mono_r; lia.
    - assert (Hp : 0 < 2 ^ (Zdigits2 mx - 24)) by (apply Z.pow_pos_nonneg; lia).
      split; [|lia]. split.
      + apply Z.lt_le_trans with (2 ^ 23); [lia|].
        apply Z.div_le_lower_bound; [lia|].
        rewrite Z.mul_comm, <- Z.pow_add_r by lia.
        replace (23 + (Zdigits2 mx - 24)) with (Zdigits2 mx - 1) by lia. lia.
      + apply Z.div_lt_upper_bound; [lia|].
        rewrite <- Z.pow_add_r by lia.
        replace (Zdigits2 mx - 24 + 24) with (Zdigits2 mx) by lia. lia. }
  destruct Hm1 as (Hm1 & He').
  assert (Hm2 : 0 < m2 <= 2 ^ 24) by lia.
  destruct (shr_fexp benchmark.float_prec benchmark.float_emax m2 e' loc_Exact) as [mrs'' e''] eqn:H2.
  apply shr_fexp_spec in H2; [|lia|lia].
  assert (Hd2 : Zdigits2 m2 <= 25) by (apply Zdigits2_le; lia).
  destruct (Zdigits2_bounds m2 ltac:(lia)) as (_ & Hlo2 & _).
  assert (Hm3 : 0 < shr_m mrs'' /\ e'' <= 41).
  { destruct H2 as [(Hle & -> & ->)|(Hgt & -> & ->)]; [lia|].
    replace (Zdigits2 m2) with 25 in * by lia.
    change (2 ^ (25 - 24)) with 2. change (2 ^ (25 - 1)) with (2 ^ 24) in Hlo2.
    split; [|lia]. apply Z.div_str_pos. lia. }
  destruct Hm3 as (Hm3 & He'').
  destruct (shr_m mrs'') as [|m|m]; [lia| |lia].
  exists m, e''. destruct (Z.leb_spec e'' (benchmark.float_emax - benchmark.float_prec)) as [|Hbig]; [reflexivity|].
  unfold benchmark.float_emax, benchmark.float_prec in Hbig. lia.
Qed.

Lemma digits2_pos_shl m d :
  Zpos (digits2_pos (Pos.iter xO m d)) = Zpos (digits2_pos m) + Zpos d.
Proof.
  induction d as [|d IH] using Pos.peano_ind.
  - simpl. lia.
  - rewrite Pos.iter_succ. simpl digits2_pos. rewrite Pos2Z.inj_succ, IH. lia.
Qed.

(** Integers of the width of [size_t] convert to finite floats; zero converts
    to [+0]. *)
Lemma float_of_Z_finite z :
  0 < z < 2 ^ 64 -> exists m e, benchmark.float_of_Z z = S754_finite false m e.
Proof.
  intros Hz. destruct z as [|p|p]; try lia.
  unfold benchmark.float_of_Z, binary_normalize, binary_round.
  assert (Hd : Zpos (digits2_pos p) <= 64) by (apply (Zdigits2_le (Zpos p)); lia).
  unfold shl_align. rewrite fexp_binary32.
  destruct (Z.max (Zpos (digits2_pos p) + 0 - 24) (-149) - 0) as [|d|d] eqn:Hshift.
  - apply binary_round_aux_finite; simpl Zdigits2; lia.
  - apply binary_round_aux_finite; simpl Zdigits2; lia.
  - apply binary_round_aux_finite; simpl Zdigits2; try lia.
    rewrite digits2_pos_shl. lia.
Qed.

Lemma float_of_Z_0 : benchmark.float_of_Z 0 = S754_zero false.
Proof. reflexivity. Qed.

(** The quotient of a float that is not negative by a finite positive float is
    not negative. *)
Lemma float_div_sign x my ey :
  positive_or_zero x -> x <> S754_infinity false ->
  positive_or_zero (benchmark.float_div x (S754_finite false my ey)).
Proof.
  intros Hx Hfin. destruct Hx as [|mx ex|]; [constructor| |contradiction].
  unfold benchmark.float_div, SFdiv, SFdiv_core_binary.
  set (m' := match _ - _ - _ with Z0 => Zpos mx | Zpos _ => Z.shiftl (Zpos mx) _ | Zneg _ => 0 end).
  assert (Hm' : 0 <= m').
  { subst m'. destruct (_ - _ - _); [lia| |lia]. apply Z.shiftl_nonneg. lia. }
  destruct (Z.div_eucl m' (Zpos my)) as [q r] eqn:Hdiv.
  assert (Hq : q = m' / Zpos my) by (unfold Z.div; now rewrite Hdiv).
  simpl xorb. apply binary_round_aux_sign. rewrite Hq. apply Z.div_pos; lia.
Qed.

(** The average that [benchmark] returns, for an elapsed time that is not
    negative and a batch that is not empty. *)
Lemma average_non_negative elapsed size :
  0 <= elapsed < 2 ^ 63 -> 0 < size < 2 ^ 64 ->
  benchmark.non_negative (benchmark.float_div (benchmark.float_of_Z elapsed) (benchmark.float_of_Z size)).
Proof.
  intros He Hs. apply positive_or_zero_non_negative.
  destruct (float_of_Z_finite size Hs) as (my & ey & ->).
  destruct (Z.eq_dec elapsed 0) as [->|Hne].
  - rewrite float_of_Z_0. apply float_div_sign; [constructor|discriminate].
  - destruct (float_of_Z_finite elapsed ltac:(lia)) as (mx & ex & ->).
    apply float_div_sign; [constructor|discriminate].
Qed.

(** ** [benchmark] *)

Section Benchmark.
Context {S A B : Type} `{benchmark.Output B}.

Lemma accumulate_into_unfold (f : A -> State S B) v output s :
  benchmark.accumulate_into f v output s
  = (benchmark.plus output (fst (f v s)), snd (f v s)).
Proof. unfold benchmark.accumulate_into. rewrite bind_unfold. reflexivity. Qed.

Lemma for_each_results (f : A -> State S B) l output s :
  benchmark.for_each l (benchmark.accumulate_into f) output s
  = (fold_left benchmark.plus (results f l s) output, state_after f l s).
Proof.
  revert output s. induction l as [|v l IH]; intros output s; [reflexivity|].
  simpl. rewrite bind_unfold, accumulate_into_unfold. simpl. apply IH.
Qed.

Lemma benchmark_unfold (f : A -> State S B) test_instances env s :
  benchmark.benchmark f test_instances env s
  = ({| benchmark.printed := fold_left benchmark.plus (results f test_instances s) benchmark.zero;
        benchmark.average :=
          benchmark.float_div
            (benchmark.float_of_Z (duration_cast_microseconds (end_time env - start_time env)))
            (benchmark.float_of_Z (Z.of_nat (length test_instances))) |},
     state_after f test_instances s).
Proof.
  unfold benchmark.benchmark. rewrite bind_unfold, for_each_results. reflexivity.
Qed.

Lemma results_constant (f : A -> State S B) c l s :
  (forall v s', fst (f v s') = c) -> results f l s = replicate (length l) c.
Proof.
  intros Hc. revert s. induction l as [|v l IH]; intros s; [reflexivity|].
  simpl. now rewrite Hc, IH.
Qed.

Lemma fold_left_replicate k (c output : B) :
  fold_left benchmark.plus (replicate k c) output
  = Nat.iter k (fun output => benchmark.plus output c) output.
Proof.
  revert output. induction k as [|k IH]; intros output; [reflexivity|].
  rewrite Nat.iter_succ_r. simpl. apply IH.
Qed.

End Benchmark.

Section Traced.
Context {S A B : Type}.

Lemma traced_unfold (f : A -> State S B) v s log :
  benchmark.traced f v (s, log) = (fst (f v s), (snd (f v s), log ++ [v])).
Proof. unfold benchmark.traced. destruct (f v s); reflexivity. Qed.

(** A traced callable computes what the callable computes, and appends the
    inputs it meets to the log. *)
Lemma results_traced (f : A -> State S B) l s log :
  results (benchmark.traced f) l (s, log) = results f l s.
Proof.
  revert s log. induction l as [|v l IH]; intros s log; [reflexivity|].
  cbn [results]. rewrite !traced_unfold. cbn [fst snd]. f_equal. apply IH.
Qed.

Lemma state_after_traced (f : A -> State S B) l s log :
  state_after (benchmark.traced f) l (s, log) = (state_after f l s, log ++ l).
Proof.
  revert s log. induction l as [|v l IH]; intros s log; cbn [state_after].
  - now rewrite app_nil_r.
  - rewrite traced_unfold. cbn [fst snd]. rewrite IH, <- app_assoc. reflexivity.
Qed.

End Traced.

Lemma duration_cast_microseconds_range d :
  0 <= d < 2 ^ 63 -> 0 <= duration_cast_microseconds d < 2 ^ 63.
Proof.
  intros Hd. unfold duration_cast_microseconds.
  rewrite Z.quot_div_nonneg by lia. split.
  - apply Z.div_pos; lia.
  - apply Z.le_lt_trans with d; [|lia]. apply Z.div_le_upper_bound; lia.
Qed.

(** On a non-empty batch, [benchmark( f, batch )] applies [f] to every element
    exactly once, in sequence order (the inputs a traced [f] meets are the
    batch itself, and tracing changes nothing else), and prints the outputs
    added up from [0] in that order; for an [f] that always returns [c] the
    printed total is [c] added once per element in the output type; and the
    average duration returned is not negative.  (The batch size is a
    [size_t], and the steady clock does not go backwards.) *)
Theorem benchmark_spec {S A B : Type} `{benchmark.Output B}
    (f : A -> State S B) (test_instances : list A) (env : Environment) (s : S) :
  test_instances <> [] ->
  is_size_t (Z.of_nat (length test_instances)) ->
  0 <= end_time env - start_time env < 2 ^ 63 ->
  let run := benchmark.benchmark f test_instances env s in
  let traced_run := benchmark.benchmark (benchmark.traced f) test_instances env (s, []) in
  snd (snd traced_run) = test_instances
  /\ fst traced_run = fst run
  /\ fst (snd traced_run) = snd run
  /\ benchmark.printed (fst run)
     = fold_left benchmark.plus (results f test_instances s) benchmark.zero
  /\ (forall c, (forall v s', fst (f v s') = c) ->
        benchmark.printed (fst run) = benchmark.times (length test_instances) c)
  /\ benchmark.non_negative (benchmark.average (fst run)).
Proof.
  intros Hne Hsize Hclock. cbv zeta. rewrite !benchmark_unfold; simpl.
  rewrite state_after_traced, results_traced; simpl.
  split; [reflexivity|]. split; [reflexivity|]. split; [reflexivity|].
  split; [reflexivity|]. split.
  - intros c Hc. rewrite (results_constant f c) by exact Hc.
    apply fold_left_replicate.
  - apply average_non_negative.
    + now apply duration_cast_microseconds_range.
    + unfold is_size_t in Hsize. destruct test_instances; [contradiction|]. simpl length in *. lia.
Qed.

(** A callable that always returns 7, over a batch of three, with 6
    microseconds between the two clock readings. *)
Lemma benchmark_spec_witness :
  benchmark.printed
    (fst (benchmark.benchmark (H := benchmark.uint32_output) (S := unit)
            (fun _ => ret 7) [10; 20; 30]
            {| time0 := 0; start_time := 5000; end_time := 11000 |} tt))
  = benchmark.times (H := benchmark.uint32_output) 3 7
  /\ benchmark.non_negative
       (benchmark.average
          (fst (benchmark.benchmark (H := benchmark.uint32_output) (S := unit)
                  (fun _ => ret 7) [10; 20; 30]
                  {| time0 := 0; start_time := 5000; end_time := 11000 |} tt))).
Proof.
  pose proof (benchmark_spec (H := benchmark.uint32_output) (S := unit)
                (fun _ => ret 7) [10; 20; 30]
                {| time0 := 0; start_time := 5000; end_time := 11000 |} tt) as Hspec.
  destruct Hspec as (_ & _ & _ & _ & Hconst & Hnn).
  - discriminate.
  - unfold is_size_t; simpl; lia.
  - simpl; lia.
  - split; [apply Hconst; reflexivity|exact Hnn].
Defined.

(** In [uint32_t] the total of [k] outputs [c] is [k * c] modulo [2 ^ 32]; over
    unbounded integers it is [k * c]. *)
Lemma times_uint32 k c :
  benchmark.times (H := benchmark.uint32_output) k c = to_uint32 (Z.of_nat k * c).
Proof.
  unfold benchmark.times. induction k as [|k IH]; [reflexivity|].
  rewrite Nat.iter_succ. cbn [benchmark.plus benchmark.uint32_output] in *.
  rewrite IH, to_uint32_add_l. f_equal. lia.
Qed.

Lemma times_Z k c : benchmark.times (H := benchmark.Z_output) k c = Z.of_nat k * c.
Proof.
  unfold benchmark.times. induction k as [|k IH]; [reflexivity|].
  rewrite Nat.iter_succ. cbn [benchmark.plus benchmark.Z_output] in *. rewrite IH. lia.
Qed.

(** C7, the claim as stated fails: a callable that always returns 2147483648
    as a [uint32_t], over a batch of 2, makes [benchmark] print 0, which is
    not 2 times 2147483648. *)
Lemma benchmark_total_wraps_counterexample :
  benchmark.printed
    (fst (benchmark.benchmark (H := benchmark.uint32_output) (S := unit)
            (fun _ : Z => ret 2147483648) [1; 2]
            {| time0 := 0; start_time := 0; end_time := 1000 |} tt))
  = 0
  /\ 2 * 2147483648 = 4294967296
  /\ benchmark.printed
       (fst (benchmark.benchmark (H := benchmark.uint32_output) (S := unit)
               (fun _ : Z => ret 2147483648) [1; 2]
               {| time0 := 0; start_time := 0; end_time := 1000 |} tt))
     <> 2 * 2147483648.
Proof. split; [|split]; vm_compute; congruence. Qed.

(** C7 (amended): on a non-empty batch, [benchmark( f, batch )] applies [f] to
    every element exactly once, in sequence order (the inputs a traced [f]
    meets are the batch itself, and tracing changes nothing else), prints the
    outputs added up from [0] in that order with the addition of the output
    type, and returns an average duration that is not negative.  For a
    callable with [uint32_t] outputs that always returns [c], over a batch of
    [k] elements, the printed total is [k * c] modulo [2 ^ 32]; it is [k * c]
    itself whenever [k * c < 2 ^ 32]. *)
Theorem benchmark_visits_and_totals {S A B : Type} `{benchmark.Output B}
    (f : A -> State S B) (test_instances : list A) (env : Environment) (s : S) :
  test_instances <> [] ->
  is_size_t (Z.of_nat (length test_instances)) ->
  0 <= end_time env - start_time env < 2 ^ 63 ->
  let run := benchmark.benchmark f test_instances env s in
  let traced_run := benchmark.benchmark (benchmark.traced f) test_instances env (s, []) in
  snd (snd traced_run) = test_instances
  /\ fst traced_run = fst run
  /\ fst (snd traced_run) = snd run
  /\ benchmark.printed (fst run)
     = fold_left benchmark.plus (results f test_instances s) benchmark.zero
  /\ benchmark.non_negative (benchmark.average (fst run))
  /\ (forall (g : A -> State S Z) c, (forall v s', fst (g v s') = c) ->
        let total_printed :=
          benchmark.printed
            (fst (benchmark.benchmark (H := benchmark.uint32_output) g test_instances env s)) in
        total_printed = to_uint32 (Z.of_nat (length test_instances) * c)
        /\ (0 <= Z.of_nat (length test_instances) * c < 2 ^ 32 ->
            total_printed = Z.of_nat (length test_instances) * c)).
Proof.
  intros Hne Hsize Hclock. cbv zeta.
  destruct (benchmark_spec f test_instances env s Hne Hsize Hclock)
    as (Hlog & Hsame & Hstate & Hfold & _ & Hnn).
  split; [exact Hlog|]. split; [exact Hsame|]. split; [exact Hstate|].
  split; [exact Hfold|]. split; [exact Hnn|].
  intros g c Hc.
  assert (Htotal : benchmark.printed
            (fst (benchmark.benchmark (H := benchmark.uint32_output) g test_instances env s))
          = to_uint32 (Z.of_nat (length test_instances) * c)).
  { rewrite benchmark_unfold. cbn [fst benchmark.printed].
    rewrite (results_constant g c) by exact Hc.
    rewrite fold_left_replicate. apply (times_uint32 (length test_instances) c). }
  split; [exact Htotal|]. intros Hsmall. rewrite Htotal.
  apply to_uint32_id. exact Hsmall.
Qed.

(** A callable that always returns 7, over a batch of three. *)
Lemma benchmark_visits_and_totals_witness :
  benchmark.printed
    (fst (benchmark.benchmark (H := benchmark.uint32_output) (S := unit)
            (fun _ : Z => ret 7) [10; 20; 30]
            {| time0 := 0; start_time := 5000; end_time := 11000 |} tt))
  = 3 * 7.
Proof.
  pose proof (benchmark_visits_and_totals (H := benchmark.uint32_output) (S := unit)
                (fun _ : Z => ret 7) [10; 20; 30]
                {| time0 := 0; start_time := 5000; end_time := 11000 |} tt) as Hspec.
  destruct Hspec as (_ & _ & _ & _ & _ & Hconst).
  - discriminate.
  - unfold is_size_t; simpl; lia.
  - simpl; lia.
  - destruct (Hconst (fun _ : Z => ret 7) 7 ltac:(reflexivity)) as (_ & Hexact).
    apply Hexact. simpl. lia.
Defined.

(** ** What a result depends on *)


Section SameDraws.
Context {S1 S2 : Type} (related : S1 -> S2 -> Prop).

Lemma same_draws_ret {A : Type} (a : A) : same_draws related (ret a) (ret a).
Proof. intros s1 s2 Hs. split; [reflexivity|exact Hs]. Qed.

Lemma same_draws_bind {A B : Type} (m1 : State S1 A) (m2 : State S2 A)
    (k1 : A -> State S1 B) (k2 : A -> State S2 B) :
  same_draws related m1 m2 -> (forall a, same_draws related (k1 a) (k2 a)) ->
  same_draws related (bind m1 k1) (bind m2 k2).
Proof.
  intros Hm Hk s1 s2 Hs. rewrite !bind_unfold.
  destruct (Hm s1 s2 Hs) as (Hv & Hs'). rewrite Hv. now apply Hk.
Qed.

Lemma same_draws_generate {A : Type} (v : list A) (g1 : State S1 A) (g2 : State S2 A) :
  same_draws related g1 g2 -> same_draws related (generate v g1) (generate v g2).
Proof.
  intros Hg. induction v as [|a v IH]; [apply same_draws_ret|].
  simpl. apply same_draws_bind; [exact Hg|]. intros x.
  apply same_draws_bind; [exact IH|]. intros r. apply same_draws_ret.
Qed.

Lemma same_draws_results {A B : Type} (f1 : A -> State S1 B) (f2 : A -> State S2 B) l :
  (forall v, same_draws related (f1 v) (f2 v)) ->
  forall s1 s2, related s1 s2 ->
    results f1 l s1 = results f2 l s2
    /\ related (state_after f1 l s1) (state_after f2 l s2).
Proof.
  intros Hf. induction l as [|v l IH]; intros s1 s2 Hs; [split; [reflexivity|exact Hs]|].
  simpl. destruct (Hf v s1 s2 Hs) as (Hv & Hs'). rewrite Hv.
  destruct (IH _ _ Hs') as (Hr & Hfinal). rewrite Hr. split; [reflexivity|exact Hfinal].
Qed.

End SameDraws.

Section TwoRuns.
Variables (R1 R2 : StdRandom) (related : @engine R1 -> @engine R2 -> Prop).
Hypothesis Hlib : same_library R1 R2 related.

Lemma same_build_person :
  same_draws related (@aos.build_person R1) (@aos.build_person R2).
Proof.
  destruct Hlib as (_ & Hsex & Hcountry & Hage & Hhst & Hincome).
  unfold aos.build_person.
  apply same_draws_bind; [apply Hage|]. intros a.
  apply same_draws_bind; [apply Hcountry|]. intros c.
  apply same_draws_bind; [apply Hincome|]. intros i.
  apply same_draws_bind; [apply Hhst|]. intros h.
  apply same_draws_bind; [apply Hsex|]. intros s.
  apply same_draws_ret.
Qed.

Lemma same_aos_census n :
  @aos.create_random_census R1 n = @aos.create_random_census R2 n.
Proof.
  unfold aos.create_random_census.
  apply (same_draws_generate related _ _ _ same_build_person).
  apply Hlib.
Qed.

Lemma same_soa_census n :
  @soa.create_random_census R1 n = @soa.create_random_census R2 n.
Proof.
  destruct Hlib as (Hdefault & Hsex & Hcountry & Hage & Hhst & Hincome).
  unfold soa.create_random_census.
  refine (proj1 (same_draws_bind related _ _ _ _ _ _ _ _ Hdefault)).
  - apply same_draws_generate. unfold soa.draw_sex.
    apply same_draws_bind; [apply Hsex|]. intros s. apply same_draws_ret.
  - intros sex. apply same_draws_bind.
    { apply same_draws_generate. unfold soa.draw_age.
      apply same_draws_bind; [apply Hage|]. intros a. apply same_draws_ret. }
    intros age. apply same_draws_bind.
    { apply same_draws_generate. unfold soa.draw_income.
      apply same_draws_bind; [apply Hincome|]. intros i. apply same_draws_ret. }
    intros income. apply same_draws_bind.
    { apply same_draws_generate. unfold soa.draw_country.
      apply same_draws_bind; [apply Hcountry|]. intros c. apply same_draws_ret. }
    intros country. apply same_draws_bind.
    { apply same_draws_generate. unfold soa.draw_hst.
      apply same_draws_bind; [apply Hhst|]. intros h. apply same_draws_ret. }
    intros hst. apply same_draws_ret.
Qed.

End TwoRuns.


Lemma same_draws_counted {A : Type} (d : State Z A) :
  same_draws (fun g (gc : Z * nat) => g = fst gc) d (Doubles.counted d).
Proof.
  intros g [g' count] Hg. simpl in Hg. subst g'. unfold Doubles.counted.
  destruct (d g); split; reflexivity.
Qed.

Lemma counting_same_library :
  same_library Doubles.lcg_random Doubles.counting_random (fun g gc => g = fst gc).
Proof.
  split; [reflexivity|].
  split; [intros a b; exact (same_draws_counted _)|].
  split; [intros a b; exact (same_draws_counted _)|].
  split; [intros t p; exact (same_draws_counted _)|].
  split; intros p; exact (same_draws_counted _).
Qed.



(** ** The median-age pipeline *)

(** The scan ends within [buckets.size() + 1] iterations when there are
    fewer than [2 ^ 32] buckets. *)
Lemma find_median_loop_terminates buckets n fuel k cumulative_total :
  Z.of_nat (length buckets) < 2 ^ 32 ->
  (k <= length buckets)%nat -> (length buckets - k < fuel)%nat ->
  is_Some (find_median_loop fuel buckets n (Z.of_nat k) cumulative_total).
Proof.
  intros Hsize. revert k cumulative_total.
  induction fuel as [|fuel IH]; intros k c Hk Hfuel; [lia|].
  simpl. destruct (Z.ltb_spec (Z.of_nat k) (Z.of_nat (length buckets))); [|now eexists].
  destruct (_ <? _); [now eexists|].
  replace (to_uint32 (Z.of_nat k + 1)) with (Z.of_nat (S k))
    by (rewrite to_uint32_id; unfold is_uint32; lia).
  apply IH; lia.
Qed.

(** The program of [median-age.cpp], for a population of [1 <= n < 2 ^ 32]
    individuals: bucketing is defined, the assertion holds, and the age
    printed is the median bucket of the histogram of the generated ages. *)
Lemma main_with_median_age `{StdRandom} (n : Z) (env : Environment) :
  1 <= n < 2 ^ 32 ->
  exists buckets b,
    soa.bucketise_by_age 256 (soa.create_random_census (Z.to_nat n)) = Some buckets
    /\ total buckets = n
    /\ median_age (main_with n env) = Some (Returned (Z.of_nat b))
    /\ (b < 256)%nat
    /\ n / 2 < cumulative buckets (S b)
    /\ cumulative buckets b <= n / 2.
Proof.
  intros Hn. unfold main_with. simpl median_age.
  change (Z.to_nat age_bound) with 256%nat. unfold soa.bucketise_by_age.
  assert (Hlen : length (soa.age (soa.create_random_census (Z.to_nat n))) = Z.to_nat n).
  { rewrite soa_census_fields; simpl. now rewrite generate_length, length_vector. }
  assert (Hages : Forall is_uint8 (soa.age (soa.create_random_census (Z.to_nat n)))).
  { rewrite soa_census_fields; simpl. apply generate_Forall.
    intros g. rewrite draw_age_unfold. apply to_uint8_range. }
  destruct (bucketise_loop_total (soa.age (soa.create_random_census (Z.to_nat n)))
              (replicate 256 0)) as (buckets & -> & Hsize & Hwf & Htot).
  - apply Forall_replicate. unfold is_size_t. lia.
  - rewrite length_replicate. revert Hages. apply Forall_impl. unfold is_uint8. lia.
  - rewrite total_replicate_0, Hlen. lia.
  - rewrite total_replicate_0, Hlen, length_replicate in *.
    assert (Htot' : total buckets = n) by lia.
    destruct (find_median_loop_median (S (length buckets)) buckets n)
      as (b & Hb & Hlt & Habove & Hbelow & _);
      try assumption; try (unfold is_size_t; lia); try lia.
    exists buckets, b. rewrite find_median_bucket_scan, Hb.
    + repeat split; try assumption; lia.
    + right. apply accumulate_0u_exact; [assumption|unfold is_uint32; lia].
Qed.

(** For an empty population [main_with] prints the sentinel, 256. *)
Lemma main_with_empty_population `{StdRandom} (env : Environment) :
  median_age (main_with 0 env) = Some (Returned 256).
Proof. reflexivity. Qed.

(** [main] itself runs on [100000000] individuals. *)
Lemma main_median_age `{StdRandom} (env : Environment) :
  exists b, median_age (main env) = Some (Returned (Z.of_nat b)) /\ (b < 256)%nat.
Proof.
  destruct (main_with_median_age population_size env) as (buckets & b & _ & _ & Hb & Hlt & _).
  - unfold population_size. lia.
  - exists b. split; assumption.
Qed.

(** ** Further properties *)

(** The median bucket.  For a histogram of fewer than [2 ^ 32] buckets whose
    counts sum to [n >= 1], [find_median_bucket] returns the least index whose
    cumulative count exceeds [n / 2], provided the assertion can hold: [n] is
    below [2 ^ 32], or assertions are compiled out. *)
Theorem find_median_bucket_returns_median fuel NDEBUG buckets n :
  Forall is_size_t buckets -> is_size_t n ->
  Z.of_nat (length buckets) < 2 ^ 32 -> (length buckets < fuel)%nat ->
  1 <= n -> total buckets = n ->
  NDEBUG = true \/ n < 2 ^ 32 ->
  exists b,
    find_median_bucket fuel NDEBUG buckets n = Some (Returned (Z.of_nat b))
    /\ (b < length buckets)%nat
    /\ n / 2 < cumulative buckets (S b)
    /\ cumulative buckets b <= n / 2
    /\ (forall b', n / 2 < cumulative buckets (S b') -> (b <= b')%nat).
Proof.
  intros Hwf Hn Hsize Hfuel Hpos Hsum Hcheck.
  destruct (find_median_loop_median fuel buckets n Hwf Hn Hsize Hfuel Hpos Hsum)
    as (b & Hb & Hrest).
  exists b. split; [|exact Hrest].
  rewrite find_median_bucket_scan, Hb; [reflexivity|].
  destruct Hcheck as [->|Hn32]; [now left|right].
  apply accumulate_0u_exact; [assumption|]. unfold is_size_t in Hn. unfold is_uint32. lia.
Qed.

(** The median bucket of [1; 0; 3; 1] for [n = 5]. *)
Lemma find_median_bucket_returns_median_witness :
  exists b,
    find_median_bucket 5 false [1; 0; 3; 1] 5 = Some (Returned (Z.of_nat b))
    /\ (b < length [1; 0; 3; 1])%nat
    /\ 5 / 2 < cumulative [1; 0; 3; 1] (S b)
    /\ cumulative [1; 0; 3; 1] b <= 5 / 2
    /\ (forall b', 5 / 2 < cumulative [1; 0; 3; 1] (S b') -> (b <= b')%nat).
Proof.
  apply (find_median_bucket_returns_median 5 false [1; 0; 3; 1] 5).
  - repeat constructor; unfold is_size_t; lia.
  - unfold is_size_t; lia.
  - simpl; lia.
  - simpl; lia.
  - lia.
  - reflexivity.
  - right; lia.
Defined.

(** Bucket [k] counts the individuals whose age is exactly [k]. *)
Lemma bucketise_loop_counts ages : forall buckets buckets',
  Forall is_size_t buckets ->
  Forall (fun age => 0 <= age < Z.of_nat (length buckets)) ages ->
  total buckets + Z.of_nat (length ages) < 2 ^ 64 ->
  soa.bucketise_loop ages buckets = Some buckets' ->
  forall k count, buckets !! k = Some count ->
    buckets' !! k = Some (count + individuals_aged (Z.of_nat k) ages).
Proof.
  induction ages as [|age ages IH]; intros buckets buckets' Hwf Hages Hroom Hrun k count Hk.
  - injection Hrun as <-. rewrite Hk. unfold individuals_aged; simpl. f_equal. lia.
  - inversion Hages as [|? ? Hage Hrest]; subst.
    destruct (increment_in_bounds buckets age Hage) as (c & Hc & Hinc).
    simpl in Hrun. rewrite Hinc in Hrun.
    pose proof (lookup_le_total _ _ _ (is_size_t_nonneg _ Hwf) Hc) as Hle.
    assert (Hcs : is_size_t c) by (eapply Forall_lookup_1; eassumption).
    assert (Hid : to_size_t (c + 1) = c + 1).
    { apply to_size_t_id. unfold is_size_t in *. simpl length in Hroom. lia. }
    rewrite Hid in Hrun.
    assert (Hwf' : Forall is_size_t (<[Z.to_nat age := c + 1]> buckets)).
    { apply Forall_insert; [assumption|]. rewrite <- Hid. apply to_size_t_range. }
    assert (Hroom' : total (<[Z.to_nat age := c + 1]> buckets) + Z.of_nat (length ages) < 2 ^ 64).
    { rewrite (total_insert _ _ _ _ Hc). simpl length in Hroom. lia. }
    assert (Hrest' : Forall (fun a => 0 <= a < Z.of_nat (length (<[Z.to_nat age := c + 1]> buckets))) ages)
      by now rewrite length_insert.
    unfold individuals_aged.
    destruct (decide (age = Z.of_nat k)) as [Heq|Hne].
    + rewrite filter_cons_True by exact Heq. simpl length.
      assert (Hkk : Z.to_nat age = k) by lia. rewrite Hkk in *.
      assert (count = c) as -> by congruence.
      rewrite (IH _ _ Hwf' Hrest' Hroom' Hrun k (c + 1)).
      * unfold individuals_aged. f_equal. lia.
      * apply list_lookup_insert_eq. now apply lookup_lt_Some in Hc.
    + rewrite filter_cons_False by exact Hne.
      apply (IH _ _ Hwf' Hrest' Hroom' Hrun k count).
      rewrite list_lookup_insert_ne by lia. exact Hk.
Qed.

(** The histogram of an SoA census: 256 counters, counter [k] holding the
    number of individuals aged [k]. *)
Theorem bucketise_by_age_counts (population_data : soa.census) :
  Forall is_uint8 (soa.age population_data) ->
  is_size_t (Z.of_nat (length (soa.age population_data))) ->
  exists buckets,
    soa.bucketise_by_age 256 population_data = Some buckets
    /\ forall k, (k < 256)%nat ->
         buckets !! k = Some (individuals_aged (Z.of_nat k) (soa.age population_data)).
Proof.
  intros Hages Hn. unfold soa.bucketise_by_age.
  assert (Hin : Forall (fun age => 0 <= age < Z.of_nat (length (replicate 256 0)))
                  (soa.age population_data)).
  { rewrite length_replicate. revert Hages. apply Forall_impl. unfold is_uint8. lia. }
  assert (Hzero : Forall is_size_t (replicate 256 0)).
  { apply Forall_replicate. unfold is_size_t. lia. }
  assert (Hroom : total (replicate 256 0) + Z.of_nat (length (soa.age population_data)) < 2 ^ 64).
  { rewrite total_replicate_0. unfold is_size_t in Hn. lia. }
  destruct (bucketise_loop_in_bounds _ _ Hin) as (buckets & Hrun & _).
  exists buckets. split; [exact Hrun|]. intros k Hk.
  rewrite (bucketise_loop_counts _ _ _ Hzero Hin Hroom Hrun k 0).
  - f_equal.
  - now apply lookup_replicate_2.
Qed.

(** The histogram of the ages [42; 7; 42]. *)
Lemma bucketise_by_age_counts_witness :
  exists buckets,
    soa.bucketise_by_age 256
      {| soa.sex := [male; male; female]; soa.age := [42; 7; 42];
         soa.income := [0; 1; 2]; soa.country := [9; 9; 9];
         soa.hst := [owner; owner; renter] |} = Some buckets
    /\ forall k, (k < 256)%nat ->
         buckets !! k = Some (individuals_aged (Z.of_nat k) [42; 7; 42]).
Proof.
  apply (bucketise_by_age_counts
           {| soa.sex := [male; male; female]; soa.age := [42; 7; 42];
              soa.income := [0; 1; 2]; soa.country := [9; 9; 9];
              soa.hst := [owner; owner; renter] |}).
  - repeat constructor; simpl; lia.
  - unfold is_size_t; simpl; lia.
Defined.

(** The scenario of one individual whose age is always drawn as 42: the
    histogram holds 1 at bucket 42 and 0 elsewhere, and the median age is
    42. *)
Example one_individual_aged_42 :
  soa.bucketise_by_age 256 (soa.create_random_census (H := Doubles.fixed_random 42 0) 1)
  = Some (replicate 42 0 ++ [1] ++ replicate 213 0)
  /\ median_age (main_with (H := Doubles.fixed_random 42 0) 1
                   {| time0 := 0; start_time := 0; end_time := 0 |})
     = Some (Returned 42).
Proof. split; vm_compute; reflexivity. Qed.

(** [uniform_rand_vec_of_vec< T >( n, m )] returns [n] vectors of [m] elements
    each. *)
Theorem uniform_rand_vec_of_vec_shape {S : Type} (rand : State S Z) (cast : Z -> Z)
    (n m : nat) (s : S) :
  length (fst (benchmark.uniform_rand_vec_of_vec rand cast n m s)) = n
  /\ Forall (fun v => length v = m) (fst (benchmark.uniform_rand_vec_of_vec rand cast n m s)).
Proof.
  unfold benchmark.uniform_rand_vec_of_vec, benchmark.build_rand_vec. split.
  - now rewrite generate_length, length_vector.
  - apply generate_Forall. intros s'. now rewrite generate_length, length_vector.
Qed.

(** ** Sums over index ranges *)

Lemma sum_below_ext n f g :
  (forall k, (k < n)%nat -> f k = g k) -> sum_below n f = sum_below n g.
Proof.
  induction n as [|n IH]; intros Hfg; [reflexivity|].
  simpl. rewrite IH, Hfg by (intros; try apply Hfg; lia). reflexivity.
Qed.

Lemma sum_below_shift n f : sum_below (S n) f = f 0%nat + sum_below n (fun k => f (S k)).
Proof. induction n as [|n IH]; [simpl; lia|]. simpl in *. rewrite IH. lia. Qed.

Lemma sum_below_add n f g :
  sum_below n (fun k => f k + g k) = sum_below n f + sum_below n g.
Proof. induction n as [|n IH]; [reflexivity|]. simpl. rewrite IH. lia. Qed.

Lemma sum_below_app n m f :
  sum_below (n + m) f = sum_below n f + sum_below m (fun k => f (n + k)%nat).
Proof.
  induction m as [|m IH]; [rewrite Nat.add_0_r; simpl; lia|].
  rewrite Nat.add_succ_r. simpl. rewrite IH. lia.
Qed.

Lemma sum_below_exchange n m (f : nat -> nat -> Z) :
  sum_below n (fun a => sum_below m (fun b => f a b))
  = sum_below m (fun b => sum_below n (fun a => f a b)).
Proof.
  induction n as [|n IH]; simpl.
  - induction m as [|m IHm]; [reflexivity|]. simpl. rewrite <- IHm. reflexivity.
  - rewrite IH, <- sum_below_add. reflexivity.
Qed.

(** A table of [r] rows and [c] columns, summed row after row, is the sum of
    its first [r * c] cells. *)
Lemma sum_below_rows r c g :
  sum_below (r * c) g = sum_below r (fun i => sum_below c (fun u => g (i * c + u)%nat)).
Proof.
  induction r as [|r IH]; [reflexivity|].
  simpl. rewrite Nat.add_comm, sum_below_app, IH. reflexivity.
Qed.

Lemma total_take_sum_below data n :
  total (take n data) = sum_below n (cell data).
Proof.
  induction n as [|n IH]; [reflexivity|]. simpl. rewrite <- IH. unfold cell.
  destruct (data !! n) as [x|] eqn:Hn.
  - rewrite (take_S_r _ _ _ Hn), total_app. unfold total; simpl. lia.
  - apply lookup_ge_None in Hn. rewrite !take_ge by lia. simpl. lia.
Qed.

(** ** [col_oriented::calc_sum] *)

Section ColumnSum.
Variables (data : list Z) (C R : nat).
Hypothesis Hfit : (R * C <= length data)%nat.
Hypothesis Hsize : Z.of_nat (length data) < 2 ^ 64.
Hypothesis HR : Z.of_nat R < 2 ^ 32.
Hypothesis HC : Z.of_nat C < 2 ^ 32.

Lemma table_index i j :
  (i < R)%nat -> (j < C)%nat ->
  Z.to_nat (to_size_t (to_size_t (Z.of_nat i * Z.of_nat C) + Z.of_nat j)) = (i * C + j)%nat
  /\ (i * C + j < length data)%nat.
Proof.
  intros Hi Hj. assert (Hlt : (i * C + j < R * C)%nat) by nia.
  rewrite (to_size_t_id (Z.of_nat i * Z.of_nat C)) by (unfold is_size_t; nia).
  rewrite to_size_t_id by (unfold is_size_t; nia).
  split; [|lia]. rewrite <- Nat2Z.inj_mul, <- Nat2Z.inj_add. apply Nat2Z.id.
Qed.

Lemma col_inner_loop j n : forall i acc fuel,
  (i + n = R)%nat -> (j < C)%nat ->
  col_oriented.loop (H := benchmark.uint32_output) (n + 1 + fuel) data
    (Z.of_nat C) (Z.of_nat R) (Z.of_nat j) (Z.of_nat i) (to_uint32 acc)
  = col_oriented.loop (H := benchmark.uint32_output) fuel data
      (Z.of_nat C) (Z.of_nat R) (to_uint32 (Z.of_nat j + 1)) 0
      (to_uint32 (acc + sum_below n (fun t => cell data ((i + t) * C + j)%nat))).
Proof.
  induction n as [|n IH]; intros i acc fuel Hi Hj.
  - simpl. destruct (Z.ltb_spec (Z.of_nat j) (Z.of_nat C)); [|lia].
    destruct (Z.ltb_spec (Z.of_nat i) (Z.of_nat R)); [lia|].
    now rewrite Z.add_0_r.
  - cbn [Nat.add col_oriented.loop].
    destruct (Z.ltb_spec (Z.of_nat j) (Z.of_nat C)); [|lia].
    destruct (Z.ltb_spec (Z.of_nat i) (Z.of_nat R)); [|lia].
    destruct (table_index i j) as (-> & Hin); [lia|lia|].
    destruct (lookup_lt_is_Some_2 data (i * C + j)%nat Hin) as [x Hx]. rewrite Hx.
    cbn [benchmark.plus benchmark.uint32_output]. rewrite to_uint32_add_l.
    replace (to_uint32 (Z.of_nat i + 1)) with (Z.of_nat (S i))
      by (rewrite to_uint32_id; unfold is_uint32; lia).
    rewrite (IH (S i) (acc + x) fuel) by lia. do 2 f_equal.
    rewrite sum_below_shift. rewrite Nat.add_0_r. unfold cell at 2. rewrite Hx. simpl.
    rewrite <- Z.add_assoc. f_equal. f_equal. apply sum_below_ext. intros t _.
    do 2 f_equal. lia.
Qed.

Lemma col_outer_loop m : forall j acc fuel,
  (j + m = C)%nat ->
  col_oriented.loop (H := benchmark.uint32_output) (m * (R + 1) + 1 + fuel) data
    (Z.of_nat C) (Z.of_nat R) (Z.of_nat j) 0 (to_uint32 acc)
  = Returns (to_uint32
      (acc + sum_below m (fun u => sum_below R (fun i => cell data (i * C + (j + u))%nat)))).
Proof.
  induction m as [|m IH]; intros j acc fuel Hj.
  - simpl. destruct (Z.ltb_spec (Z.of_nat j) (Z.of_nat C)); [lia|]. now rewrite Z.add_0_r.
  - replace (S m * (R + 1) + 1 + fuel)%nat with (R + 1 + (m * (R + 1) + 1 + fuel))%nat by lia.
    rewrite (col_inner_loop j R 0%nat acc) by lia.
    replace (to_uint32 (Z.of_nat j + 1)) with (Z.of_nat (S j))
      by (rewrite to_uint32_id; unfold is_uint32; lia).
    rewrite (IH (S j)) by lia. do 2 f_equal.
    rewrite sum_below_shift. rewrite <- Z.add_assoc. f_equal. f_equal.
    + apply sum_below_ext. intros i _. do 2 f_equal. lia.
    + apply sum_below_ext. intros u _. apply sum_below_ext. intros i _. do 2 f_equal. lia.
Qed.

Lemma col_loop_total fuel :
  (C * (R + 1) < fuel)%nat ->
  col_oriented.loop (H := benchmark.uint32_output) fuel data
    (Z.of_nat C) (Z.of_nat R) 0 0 0
  = Returns (to_uint32 (total (take (R * C) data))).
Proof.
  intros Hfuel.
  replace fuel with (C * (R + 1) + 1 + (fuel - C * (R + 1) - 1))%nat by lia.
  change 0 with (Z.of_nat 0) at 1. change 0 with (to_uint32 0) at 2.
  rewrite (col_outer_loop C 0%nat 0) by lia. do 2 f_equal.
  rewrite total_take_sum_below, sum_below_rows, sum_below_exchange. simpl. reflexivity.
Qed.

End ColumnSum.

Lemma after_add {S T : Type} (gen : State S T) a b s :
  after gen (a + b) s = after gen b (after gen a s).
Proof. revert s. induction a as [|a IH]; intros s; [reflexivity|]. simpl. apply IH. Qed.

(** ** [row_oriented::calc_sum] *)

Lemma column_read_lt {St : Type} (rand : State St Z) C s k :
  (0 < C)%nat -> (column_read rand C s k < C)%nat.
Proof.
  intros HC0. unfold column_read.
  pose proof (Z.mod_pos_bound (rand_value rand s k) (Z.of_nat C) ltac:(lia)). lia.
Qed.

Section RowSum.
Context {St : Type}.
Variables (rand : State St Z) (data : list Z) (C R : nat).
Hypothesis Hfit : (R * C <= length data)%nat.
Hypothesis Hsize : Z.of_nat (length data) < 2 ^ 64.
Hypothesis HR : Z.of_nat R < 2 ^ 32.
Hypothesis HC : Z.of_nat C < 2 ^ 32.


Lemma row_inner_loop i n : forall j acc s fuel,
  (j + n = C)%nat -> (i < R)%nat ->
  row_oriented.loop (H := benchmark.uint32_output) rand (n + 1 + fuel) data
    (Z.of_nat C) (Z.of_nat R) (Z.of_nat i) (Z.of_nat j) (to_uint32 acc) s
  = row_oriented.loop (H := benchmark.uint32_output) rand fuel data
      (Z.of_nat C) (Z.of_nat R) (to_uint32 (Z.of_nat i + 1)) 0
      (to_uint32 (acc + sum_below n (fun t => cell data (i * C + column_read rand C s t)%nat)))
      (after rand n s).
Proof.
  induction n as [|n IH]; intros j acc s fuel Hj Hi.
  - simpl. destruct (Z.ltb_spec (Z.of_nat i) (Z.of_nat R)); [|lia].
    destruct (Z.ltb_spec (Z.of_nat j) (Z.of_nat C)); [lia|].
    now rewrite Z.add_0_r.
  - cbn [Nat.add row_oriented.loop].
    destruct (Z.ltb_spec (Z.of_nat i) (Z.of_nat R)); [|lia].
    destruct (Z.ltb_spec (Z.of_nat j) (Z.of_nat C)); [|lia].
    rewrite bind_unfold.
    pose proof (column_read_lt rand C s 0 ltac:(lia)) as Hq.
    assert (Hmod : to_size_t (fst (rand s)) mod Z.of_nat C = Z.of_nat (column_read rand C s 0)).
    { unfold column_read, rand_value. simpl after. rewrite Z2Nat.id; [reflexivity|].
      apply Z.mod_pos_bound. lia. }
    rewrite Hmod.
    destruct (table_index data C R Hfit Hsize i (column_read rand C s 0)) as (-> & Hin); [lia|lia|].
    destruct (lookup_lt_is_Some_2 data _ Hin) as [x Hx]. rewrite Hx.
    cbn [benchmark.plus benchmark.uint32_output]. rewrite to_uint32_add_l.
    replace (to_uint32 (Z.of_nat j + 1)) with (Z.of_nat (S j))
      by (rewrite to_uint32_id; unfold is_uint32; lia).
    rewrite (IH (S j) (acc + x) (snd (rand s)) fuel) by lia.
    cbn [after]. do 2 f_equal.
    rewrite sum_below_shift. unfold cell at 2. rewrite Hx. simpl.
    rewrite <- Z.add_assoc. reflexivity.
Qed.

Lemma row_outer_loop m : forall i acc s fuel,
  (i + m = R)%nat -> (0 < C)%nat ->
  row_oriented.loop (H := benchmark.uint32_output) rand (m * (C + 1) + 1 + fuel) data
    (Z.of_nat C) (Z.of_nat R) (Z.of_nat i) 0 (to_uint32 acc) s
  = (Returns (to_uint32
       (acc + sum_below m (fun a => sum_below C (fun t =>
                 cell data ((i + a) * C + column_read rand C s (a * C + t))%nat)))),
     after rand (m * C) s).
Proof.
  induction m as [|m IH]; intros i acc s fuel Hi HC0.
  - simpl. destruct (Z.ltb_spec (Z.of_nat i) (Z.of_nat R)); [lia|].
    unfold ret. now rewrite Z.add_0_r.
  - replace (S m * (C + 1) + 1 + fuel)%nat with (C + 1 + (m * (C + 1) + 1 + fuel))%nat by lia.
    change 0 with (Z.of_nat 0) at 1.
    rewrite (row_inner_loop i C 0%nat acc) by lia.
    replace (to_uint32 (Z.of_nat i + 1)) with (Z.of_nat (S i))
      by (rewrite to_uint32_id; unfold is_uint32; lia).
    rewrite (IH (S i)) by lia. f_equal.
    + do 2 f_equal. rewrite sum_below_shift. rewrite <- Z.add_assoc. f_equal. f_equal.
      * apply sum_below_ext. intros t _. rewrite Nat.add_0_r. reflexivity.
      * apply sum_below_ext. intros a _. apply sum_below_ext. intros t _.
        replace (i + S a)%nat with (S i + a)%nat by lia.
        f_equal. f_equal. unfold column_read, rand_value.
        rewrite <- after_add.
        replace (C + (a * C + t))%nat with (S a * C + t)%nat by lia. reflexivity.
    + rewrite <- after_add. reflexivity.
Qed.

End RowSum.

Lemma table_rows_fit (data : list Z) (C : nat) :
  (0 < C)%nat -> (length data / C * C <= length data)%nat.
Proof. intros HC. rewrite Nat.mul_comm. apply Nat.Div0.mul_div_le. Qed.

Lemma num_rows_value (data : list Z) (C : nat) :
  Z.of_nat (length data) / Z.of_nat C = Z.of_nat (length data / C).
Proof. symmetry. apply Nat2Z.inj_div. Qed.

(** The value of [col_oriented::calc_sum] over [uint32_t] cells. *)
Lemma col_calc_sum_value fuel NDEBUG C (data : list Z) :
  (0 < C)%nat -> Z.of_nat C < 2 ^ 32 -> Z.of_nat (length data / C) < 2 ^ 32 ->
  is_size_t (Z.of_nat (length data)) ->
  NDEBUG = true \/ data <> [] ->
  (C * (length data / C + 1) < fuel)%nat ->
  col_oriented.calc_sum (H := benchmark.uint32_output) fuel NDEBUG (Z.of_nat C) data
  = Returns (to_uint32 (total (take (length data / C * C) data))).
Proof.
  intros HC0 HC HR Hsize Hne Hfuel. unfold col_oriented.calc_sum.
  assert (Hassert : negb NDEBUG && negb (0 <? Z.of_nat (length data)) = false).
  { destruct Hne as [->|Hne]; [reflexivity|].
    destruct data; [contradiction|]. simpl length.
    destruct (Z.ltb_spec 0 (Z.of_nat (S (length data)))); [|lia].
    now rewrite andb_false_r. }
  rewrite Hassert. destruct (Z.eqb_spec (Z.of_nat C) 0); [lia|].
  rewrite num_rows_value. cbn [benchmark.zero benchmark.uint32_output].
  apply col_loop_total; try assumption; [now apply table_rows_fit|unfold is_size_t in Hsize; lia].
Qed.

(** The value of [row_oriented::calc_sum] over [uint32_t] cells, and the state
    it leaves [std::rand] in. *)
Lemma row_calc_sum_value {St : Type} (rand : State St Z) fuel NDEBUG C (data : list Z) s :
  (0 < C)%nat -> Z.of_nat C < 2 ^ 32 -> Z.of_nat (length data / C) < 2 ^ 32 ->
  is_size_t (Z.of_nat (length data)) ->
  NDEBUG = true \/ data <> [] ->
  (length data / C * (C + 1) < fuel)%nat ->
  row_oriented.calc_sum (H := benchmark.uint32_output) rand fuel NDEBUG (Z.of_nat C) data s
  = (Returns (to_uint32 (sum_below (length data / C) (fun i => sum_below C (fun t =>
                 cell data (i * C + column_read rand C s (i * C + t))%nat)))),
     after rand (length data / C * C) s).
Proof.
  intros HC0 HC HR Hsize Hne Hfuel. unfold row_oriented.calc_sum.
  assert (Hassert : negb NDEBUG && negb (0 <? Z.of_nat (length data)) = false).
  { destruct Hne as [->|Hne]; [reflexivity|].
    destruct data; [contradiction|]. simpl length.
    destruct (Z.ltb_spec 0 (Z.of_nat (S (length data)))); [|lia].
    now rewrite andb_false_r. }
  rewrite Hassert. destruct (Z.eqb_spec (Z.of_nat C) 0); [lia|].
  rewrite num_rows_value. cbn [benchmark.zero benchmark.uint32_output].
  replace fuel with (length data / C * (C + 1) + 1 + (fuel - length data / C * (C + 1) - 1))%nat
    by lia.
  change 0 with (Z.of_nat 0) at 1. change 0 with (to_uint32 0) at 2.
  rewrite (row_outer_loop rand data C (length data / C)); try assumption; try lia.
  - reflexivity.
  - now apply table_rows_fit.
  - unfold is_size_t in Hsize; lia.
Qed.

(** The column-oriented sum over [uint32_t] cells: for a non-empty vector and
    [0 < num_cols < 2 ^ 32] it returns, without reading outside the vector,
    the sum modulo [2 ^ 32] of the first [(size / num_cols) * num_cols]
    cells; the cells after them are not read.  So it is the sum of the whole
    vector when [num_cols] divides the size, and 0 when there are more
    columns than cells. *)
Theorem col_oriented_calc_sum_total fuel NDEBUG (C : nat) (data : list Z) :
  (0 < C)%nat -> Z.of_nat C < 2 ^ 32 -> Z.of_nat (length data / C) < 2 ^ 32 ->
  is_size_t (Z.of_nat (length data)) ->
  NDEBUG = true \/ data <> [] ->
  (C * (length data / C + 1) < fuel)%nat ->
  col_oriented.calc_sum (H := benchmark.uint32_output) fuel NDEBUG (Z.of_nat C) data
  = Returns (to_uint32 (total (take (length data / C * C) data)))
  /\ ((length data mod C = 0)%nat ->
      col_oriented.calc_sum (H := benchmark.uint32_output) fuel NDEBUG (Z.of_nat C) data
      = Returns (to_uint32 (total data)))
  /\ ((length data < C)%nat ->
      col_oriented.calc_sum (H := benchmark.uint32_output) fuel NDEBUG (Z.of_nat C) data
      = Returns 0).
Proof.
  intros HC0 HC HR Hsize Hne Hfuel.
  pose proof (col_calc_sum_value fuel NDEBUG C data HC0 HC HR Hsize Hne Hfuel) as Hval.
  split; [exact Hval|]. split.
  - intros Hdiv. rewrite Hval, take_ge; [reflexivity|].
    pose proof (Nat.div_mod_eq (length data) C). lia.
  - intros Hfew. rewrite Hval, Nat.div_small by exact Hfew. reflexivity.
Qed.

(** Seven cells in three columns: the seventh is not read. *)
Lemma col_oriented_calc_sum_total_witness :
  col_oriented.calc_sum (H := benchmark.uint32_output) 10 false 3 [1; 2; 3; 4; 5; 6; 7]
  = Returns (to_uint32 21).
Proof.
  apply (proj1 (col_oriented_calc_sum_total 10 false 3 [1; 2; 3; 4; 5; 6; 7]
                  ltac:(lia) ltac:(simpl; lia) ltac:(simpl; lia)
                  ltac:(unfold is_size_t; simpl; lia) ltac:(right; discriminate)
                  ltac:(simpl; lia))).
Defined.

(** The row-oriented sum over [uint32_t] cells: for a non-empty vector and
    [0 < num_cols < 2 ^ 32] it returns without reading outside the vector; it
    calls [std::rand] once per cell of the [size / num_cols] full rows; and the
    value is the sum modulo [2 ^ 32] of, for every row, [num_cols] cells of
    that row, the [k]-th read taking the column given by the [k]-th random
    number modulo [num_cols]. *)
Theorem row_oriented_calc_sum_reads {St : Type} (rand : State St Z)
    fuel NDEBUG (C : nat) (data : list Z) (s : St) :
  (0 < C)%nat -> Z.of_nat C < 2 ^ 32 -> Z.of_nat (length data / C) < 2 ^ 32 ->
  is_size_t (Z.of_nat (length data)) ->
  NDEBUG = true \/ data <> [] ->
  (length data / C * (C + 1) < fuel)%nat ->
  row_oriented.calc_sum (H := benchmark.uint32_output) rand fuel NDEBUG (Z.of_nat C) data s
  = (Returns (to_uint32 (sum_below (length data / C) (fun i => sum_below C (fun t =>
                 cell data (i * C + column_read rand C s (i * C + t))%nat)))),
     after rand (length data / C * C) s)
  /\ (forall i k, (i < length data / C)%nat ->
        (i * C + column_read rand C s k < length data)%nat
        /\ (column_read rand C s k < C)%nat).
Proof.
  intros HC0 HC HR Hsize Hne Hfuel. split.
  - now apply row_calc_sum_value.
  - intros i k Hi. pose proof (column_read_lt rand C s k HC0) as Hlt.
    pose proof (table_rows_fit data C HC0). split; [nia|exact Hlt].
Qed.

(** Seven cells in three columns, with the stand-in random numbers. *)
Lemma row_oriented_calc_sum_reads_witness :
  fst (row_oriented.calc_sum (H := benchmark.uint32_output)
         (Doubles.draw_below 2147483647) 9 false (Z.of_nat 3) [1; 2; 3; 4; 5; 6; 7] 1)
  = Returns 24.
Proof.
  rewrite (proj1 (row_oriented_calc_sum_reads (Doubles.draw_below 2147483647)
                    9 false 3 [1; 2; 3; 4; 5; 6; 7] 1
                    ltac:(lia) ltac:(simpl; lia) ltac:(simpl; lia)
                    ltac:(unfold is_size_t; simpl; lia) ltac:(right; discriminate)
                    ltac:(simpl; lia))).
  vm_compute. reflexivity.
Defined.

(** On a table whose rows are constant (in particular on a table of a single
    column) the row-oriented sum does not depend on the random numbers: it is
    the column-oriented sum. *)
Theorem row_and_col_sums_agree {St : Type} (rand : State St Z)
    fuel NDEBUG (C : nat) (data : list Z) (s : St) :
  (0 < C)%nat -> Z.of_nat C < 2 ^ 32 -> Z.of_nat (length data / C) < 2 ^ 32 ->
  is_size_t (Z.of_nat (length data)) ->
  NDEBUG = true \/ data <> [] ->
  (length data / C * (C + 1) < fuel)%nat -> (C * (length data / C + 1) < fuel)%nat ->
  (forall i u v, (i < length data / C)%nat -> (u < C)%nat -> (v < C)%nat ->
     cell data (i * C + u) = cell data (i * C + v)) ->
  fst (row_oriented.calc_sum (H := benchmark.uint32_output) rand fuel NDEBUG (Z.of_nat C) data s)
  = col_oriented.calc_sum (H := benchmark.uint32_output) fuel NDEBUG (Z.of_nat C) data.
Proof.
  intros HC0 HC HR Hsize Hne Hfr Hfc Hconst.
  rewrite row_calc_sum_value, col_calc_sum_value by assumption. simpl fst.
  do 2 f_equal. rewrite total_take_sum_below, sum_below_rows.
  apply sum_below_ext. intros i Hi. apply sum_below_ext. intros t Ht.
  apply Hconst; [exact Hi| |exact Ht]. now apply column_read_lt.
Qed.

(** A single column. *)
Lemma row_and_col_sums_agree_witness :
  fst (row_oriented.calc_sum (H := benchmark.uint32_output)
         (Doubles.draw_below 2147483647) 20 false 1 [5; 6; 7] 1)
  = col_oriented.calc_sum (H := benchmark.uint32_output) 20 false 1 [5; 6; 7].
Proof.
  apply (row_and_col_sums_agree (Doubles.draw_below 2147483647) 20 false 1 [5; 6; 7] 1);
    try (simpl; lia); try (unfold is_size_t; simpl; lia); try (right; discriminate).
  intros i u v _ Hu Hv. replace u with 0%nat by lia. replace v with 0%nat by lia. reflexivity.
Defined.

(** ** The generated test tables *)

Lemma after_ext {St T U : Type} (g : State St T) (h : State St U) k s :
  (forall s', snd (g s') = snd (h s')) -> after g k s = after h k s.
Proof.
  intros Hgh. revert s. induction k as [|k IH]; intros s; [reflexivity|].
  simpl. rewrite Hgh. apply IH.
Qed.

Lemma after_blocks {St T U : Type} (g : State St T) (h : State St U) m k s :
  (forall s', snd (g s') = after h m s') -> after g k s = after h (k * m) s.
Proof.
  intros Hg. revert s. induction k as [|k IH]; intros s; [reflexivity|].
  simpl. rewrite Hg, IH, <- after_add. reflexivity.
Qed.

(** Element [j] of vector [i] of [uniform_rand_vec_of_vec< T >( n, m )] is the
    value of call number [i * m + j] of [std::rand], cast to [T]; [n * m]
    calls are made in all. *)
Theorem uniform_rand_vec_of_vec_elements {St : Type} (rand : State St Z) (cast : Z -> Z)
    (n m : nat) (s : St) :
  (forall i j, (i < n)%nat -> (j < m)%nat ->
     exists v,
       fst (benchmark.uniform_rand_vec_of_vec rand cast n m s) !! i = Some v
       /\ v !! j = Some (cast (fst (rand (after rand (i * m + j) s)))))
  /\ snd (benchmark.uniform_rand_vec_of_vec rand cast n m s) = after rand (n * m) s.
Proof.
  unfold benchmark.uniform_rand_vec_of_vec, benchmark.build_rand_vec.
  set (cell_gen := (x <- rand ;; ret (cast x)) : State St Z).
  set (row_gen := generate (vector m) cell_gen).
  assert (Hcell : forall s', snd (cell_gen s') = snd (rand s')).
  { intros s'. unfold cell_gen. rewrite bind_unfold. reflexivity. }
  assert (Hrow : forall s', snd (row_gen s') = after rand m s').
  { intros s'. unfold row_gen. rewrite generate_state, length_vector.
    now apply after_ext. }
  split.
  - intros i j Hi Hj. eexists. split.
    + apply generate_lookup. now rewrite length_vector.
    + unfold row_gen at 1. rewrite generate_lookup by now rewrite length_vector.
      unfold cell_gen at 1. rewrite bind_unfold. unfold ret; simpl.
      rewrite (after_blocks row_gen rand m i s Hrow).
      rewrite (after_ext cell_gen rand j _ Hcell), <- after_add. reflexivity.
  - rewrite generate_state, length_vector. now apply after_blocks.
Qed.

(** On every table that [uniform_rand_vec_of_vec< uint32_t >( n, rows * cols )]
    generates, the column-oriented sum returns (no abort, no read outside the
    table) the sum of the whole table modulo [2 ^ 32]. *)
Theorem col_sum_of_generated_tables {St : Type} (rand : State St Z)
    (n rows cols fuel : nat) (NDEBUG : bool) (s : St) :
  (0 < rows)%nat -> (0 < cols)%nat ->
  Z.of_nat rows < 2 ^ 32 -> Z.of_nat cols < 2 ^ 32 ->
  (cols * (rows + 1) < fuel)%nat ->
  Forall (fun table =>
            col_oriented.calc_sum (H := benchmark.uint32_output) fuel NDEBUG
              (Z.of_nat cols) table
            = Returns (to_uint32 (total table)))
         (fst (benchmark.uniform_rand_vec_of_vec rand to_uint32 n (rows * cols) s)).
Proof.
  intros Hrows Hcols HR HC Hfuel.
  unfold benchmark.uniform_rand_vec_of_vec, benchmark.build_rand_vec.
  apply generate_Forall. intros s'.
  set (table := fst (generate _ _ s')).
  assert (Hlen : length table = (rows * cols)%nat).
  { unfold table. now rewrite generate_length, length_vector. }
  assert (Hdiv : (length table / cols = rows)%nat).
  { rewrite Hlen. apply Nat.div_mul. lia. }
  rewrite col_calc_sum_value; rewrite ?Hdiv; try assumption; try lia.
  - rewrite take_ge by lia. reflexivity.
  - rewrite Hlen. unfold is_size_t. nia.
  - right. intros ->. simpl in Hlen. nia.
Qed.

Lemma col_sum_of_generated_tables_witness :
  Forall (fun table =>
            col_oriented.calc_sum (H := benchmark.uint32_output) 7 false (Z.of_nat 3) table
            = Returns (to_uint32 (total table)))
         (fst (benchmark.uniform_rand_vec_of_vec (Doubles.draw_below 2147483647)
                 to_uint32 2 (1 * 3) 1)).
Proof.
  apply (col_sum_of_generated_tables (Doubles.draw_below 2147483647) 2 1 3 7 false 1);
    simpl; lia.
Defined.

(** ** More on [benchmark] *)

(** With [uint32_t] outputs the total that [benchmark] prints is the sum of all
    the outputs modulo [2 ^ 32]. *)
Theorem benchmark_uint32_total {St A : Type} (f : A -> State St Z)
    (test_instances : list A) (env : Environment) (s : St) :
  benchmark.printed
    (fst (benchmark.benchmark (H := benchmark.uint32_output) f test_instances env s))
  = to_uint32 (total (results f test_instances s)).
Proof.
  rewrite benchmark_unfold. simpl.
  apply (accumulate_0u_fold (results f test_instances s) 0).
Qed.

(** On an empty batch [benchmark] never invokes the callable and prints the
    initial total, and the division by the batch size is a division by zero:
    in IEEE arithmetic the value returned is NaN when less than a microsecond
    was measured, and plus infinity otherwise. *)
Theorem benchmark_empty_batch {St A B : Type} `{benchmark.Output B}
    (f : A -> State St B) (env : Environment) (s : St) :
  0 <= end_time env - start_time env < 2 ^ 63 ->
  benchmark.printed (fst (benchmark.benchmark f [] env s)) = benchmark.zero
  /\ snd (benchmark.benchmark f [] env s) = s
  /\ (end_time env - start_time env < 1000 ->
      benchmark.average (fst (benchmark.benchmark f [] env s)) = S754_nan)
  /\ (1000 <= end_time env - start_time env ->
      benchmark.average (fst (benchmark.benchmark f [] env s)) = S754_infinity false).
Proof.
  intros Hclock. rewrite benchmark_unfold. simpl.
  split; [reflexivity|]. split; [reflexivity|].
  unfold duration_cast_microseconds. rewrite Z.quot_div_nonneg by lia. split.
  - intros Hshort. rewrite Z.div_small by lia. reflexivity.
  - intros Hlong.
    assert (Hus : 0 < (end_time env - start_time env) / 1000 < 2 ^ 64).
    { split.
      - apply Z.div_str_pos. lia.
      - apply Z.le_lt_trans with (end_time env - start_time env); [|lia].
        apply Z.div_le_upper_bound; lia. }
    destruct (float_of_Z_finite _ Hus) as (m & e & ->). reflexivity.
Qed.

Lemma benchmark_empty_batch_witness :
  benchmark.average
    (fst (benchmark.benchmark (H := benchmark.uint32_output) (S := unit) (A := Z)
            (fun v => ret v) []
            {| time0 := 0; start_time := 0; end_time := 5000 |} tt))
  = S754_infinity false.
Proof.
  apply (benchmark_empty_batch (H := benchmark.uint32_output) (St := unit) (A := Z)
           (fun v => ret v) {| time0 := 0; start_time := 0; end_time := 5000 |} tt);
    simpl; lia.
Defined.

(** ** More on the census and its histogram *)

Lemma generate_app {St T : Type} (v1 v2 : list T) (gen : State St T) s :
  fst (generate (v1 ++ v2) gen s)
  = fst (generate v1 gen s) ++ fst (generate v2 gen (after gen (length v1) s)).
Proof.
  revert s. induction v1 as [|t v1 IH]; intros s; [reflexivity|].
  rewrite <- app_comm_cons, !generate_cons. simpl. now rewrite IH.
Qed.

Lemma generate_take {St T : Type} `{ValueInit T} (gen : State St T) n m s :
  (n <= m)%nat ->
  take n (fst (generate (vector (T := T) m) gen s)) = fst (generate (vector n) gen s).
Proof.
  intros Hnm. unfold vector. replace m with (n + (m - n))%nat by lia.
  rewrite replicate_add, generate_app, take_app_length'; [reflexivity|].
  now rewrite generate_length, length_replicate.
Qed.

(** Growing the population keeps the individuals already there: the AoS
    census of [n] individuals is the first [n] records of the census of any
    [m >= n]; in the SoA census this holds for the sex column, the first to
    be generated. *)
Theorem census_prefix `{StdRandom} (n m : nat) :
  (n <= m)%nat ->
  take n (aos.create_random_census m) = aos.create_random_census n
  /\ take n (soa.sex (soa.create_random_census m)) = soa.sex (soa.create_random_census n).
Proof.
  intros Hnm. split.
  - unfold aos.create_random_census. now apply generate_take.
  - rewrite !soa_census_fields. simpl. now apply generate_take.
Qed.

Lemma census_prefix_witness :
  take 2 (aos.create_random_census (H := Doubles.lcg_random) 3)
  = aos.create_random_census (H := Doubles.lcg_random) 2
  /\ take 2 (soa.sex (soa.create_random_census (H := Doubles.lcg_random) 3))
     = soa.sex (soa.create_random_census (H := Doubles.lcg_random) 2).
Proof. apply (census_prefix (H := Doubles.lcg_random) 2 3). lia. Defined.

(** Two increments can be made in either order. *)
Lemma increment_comm buckets x y :
  (increment buckets x ≫= fun b => increment b y)
  = (increment buckets y ≫= fun b => increment b x).
Proof.
  destruct (decide (x = y)) as [->|Hxy]; [reflexivity|].
  destruct (decide (0 <= x < Z.of_nat (length buckets))) as [Hx|Hx];
    destruct (decide (0 <= y < Z.of_nat (length buckets))) as [Hy|Hy].
  - destruct (increment_in_bounds buckets x Hx) as (cx & Hcx & ->).
    destruct (increment_in_bounds buckets y Hy) as (cy & Hcy & ->). simpl.
    unfold increment.
    destruct (decide (0 <= y)); [|lia]. destruct (decide (0 <= x)); [|lia].
    rewrite !list_lookup_insert_ne by lia. rewrite Hcx, Hcy.
    f_equal. apply list_insert_insert_ne. lia.
  - destruct (increment_in_bounds buckets x Hx) as (cx & Hcx & ->). simpl.
    rewrite (increment_out_of_bounds buckets y Hy). simpl.
    apply increment_out_of_bounds. now rewrite length_insert.
  - destruct (increment_in_bounds buckets y Hy) as (cy & Hcy & ->). simpl.
    rewrite (increment_out_of_bounds buckets x Hx). simpl. symmetry.
    apply increment_out_of_bounds. now rewrite length_insert.
  - now rewrite !increment_out_of_bounds.
Qed.

Lemma bucketise_loop_cons age ages buckets :
  soa.bucketise_loop (age :: ages) buckets
  = increment buckets age ≫= soa.bucketise_loop ages.
Proof. simpl. destruct (increment buckets age); reflexivity. Qed.

Lemma bucketise_loop_cons2 a b ages buckets :
  soa.bucketise_loop (a :: b :: ages) buckets
  = (increment buckets a ≫= fun b0 => increment b0 b) ≫= soa.bucketise_loop ages.
Proof.
  simpl. destruct (increment buckets a) as [b1|]; simpl; [|reflexivity].
  destruct (increment b1 b); reflexivity.
Qed.

Lemma bucketise_loop_permutation ages ages' :
  Permutation ages ages' ->
  forall buckets, soa.bucketise_loop ages buckets = soa.bucketise_loop ages' buckets.
Proof.
  induction 1 as [|a l l' _ IH|a b l|l1 l2 l3 _ IH1 _ IH2]; intros buckets.
  - reflexivity.
  - rewrite !bucketise_loop_cons. destruct (increment buckets a); simpl; [apply IH|reflexivity].
  - rewrite !bucketise_loop_cons2, increment_comm. reflexivity.
  - now rewrite IH1, IH2.
Qed.

(** The histogram depends on the ages only, not on their order and not on
    the layout: an AoS census and an SoA census whose ages are the same up to
    order get the same histogram (or are both undefined), for any number of
    buckets. *)
Theorem histogram_of_permuted_ages (NUM_BUCKETS : nat)
    (aos_population : aos.census) (soa_population : soa.census) :
  Permutation (map aos.age aos_population) (soa.age soa_population) ->
  aos.bucketise_by_age NUM_BUCKETS aos_population
  = soa.bucketise_by_age NUM_BUCKETS soa_population.
Proof.
  intros Hperm. unfold aos.bucketise_by_age, soa.bucketise_by_age.
  rewrite aos_bucketise_loop_ages. now apply bucketise_loop_permutation.
Qed.

Lemma histogram_of_permuted_ages_witness :
  aos.bucketise_by_age 256
    [ {| aos.age := 42; aos.country := 1; aos.income := 10003;
         aos.hst := owner; aos.sex := female |};
      {| aos.age := 7; aos.country := 2; aos.income := 10000;
         aos.hst := renter; aos.sex := male |} ]
  = soa.bucketise_by_age 256
      {| soa.sex := [male; female]; soa.age := [7; 42]; soa.income := [0; 3];
         soa.country := [2; 1]; soa.hst := [renter; owner] |}.
Proof.
  apply histogram_of_permuted_ages. simpl. apply perm_swap.
Defined.

(** Bucketing is defined exactly when every age is below the number of
    buckets; otherwise some increment is outside the array. *)
Theorem bucketise_by_age_defined (NUM_BUCKETS : nat)
    (aos_population : aos.census) (soa_population : soa.census) :
  (is_Some (soa.bucketise_by_age NUM_BUCKETS soa_population)
   <-> Forall (fun age => 0 <= age < Z.of_nat NUM_BUCKETS) (soa.age soa_population))
  /\ (is_Some (aos.bucketise_by_age NUM_BUCKETS aos_population)
      <-> Forall (fun person => 0 <= aos.age person < Z.of_nat NUM_BUCKETS) aos_population).
Proof.
  assert (Hloop : forall ages,
    is_Some (soa.bucketise_loop ages (replicate NUM_BUCKETS 0))
    <-> Forall (fun age => 0 <= age < Z.of_nat NUM_BUCKETS) ages).
  { intros ages. split.
    - intros Hsome.
      destruct (decide (Forall (fun age => 0 <= age < Z.of_nat NUM_BUCKETS) ages)) as [|Hno];
        [assumption|].
      apply not_Forall_Exists in Hno; [|intros age; apply _].
      rewrite bucketise_loop_out_of_bounds in Hsome.
      + destruct Hsome as [? [=]].
      + rewrite length_replicate. exact Hno.
    - intros Hall.
      destruct (bucketise_loop_in_bounds ages (replicate NUM_BUCKETS 0)) as (b & -> & _);
        [now rewrite length_replicate|now eexists]. }
  split.
  - apply Hloop.
  - unfold aos.bucketise_by_age. rewrite aos_bucketise_loop_ages, Hloop.
    apply Forall_fmap.
Qed.

(** ** More on [find_median_bucket] *)

Lemma find_median_loop_range buckets n :
  Z.of_nat (length buckets) < 2 ^ 32 ->
  forall fuel k cumulative_total,
    (k <= length buckets)%nat -> (length buckets - k < fuel)%nat ->
    exists r, find_median_loop fuel buckets n (Z.of_nat k) cumulative_total = Some (Z.of_nat r)
              /\ (k <= r <= length buckets)%nat.
Proof.
  intros Hsize. induction fuel as [|fuel IH]; intros k c Hk Hfuel; [lia|].
  simpl. destruct (Z.ltb_spec (Z.of_nat k) (Z.of_nat (length buckets)));
    [|exists (length buckets); split; [reflexivity|lia]].
  destruct (_ <? _); [exists k; split; [reflexivity|lia]|].
  replace (to_uint32 (Z.of_nat k + 1)) with (Z.of_nat (S k))
    by (rewrite to_uint32_id; unfold is_uint32; lia).
  destruct (IH (S k) (to_size_t (c + default 0 (buckets !! Z.to_nat (Z.of_nat k)))))
    as (r & Hr & Hrange); [lia|lia|].
  exists r. split; [exact Hr|lia].
Qed.

Lemma find_median_loop_fuel buckets n :
  Z.of_nat (length buckets) < 2 ^ 32 ->
  forall fuel fuel' k cumulative_total,
    (k <= length buckets)%nat ->
    (length buckets - k < fuel)%nat -> (length buckets - k < fuel')%nat ->
    find_median_loop fuel buckets n (Z.of_nat k) cumulative_total
    = find_median_loop fuel' buckets n (Z.of_nat k) cumulative_total.
Proof.
  intros Hsize. induction fuel as [|fuel IH]; intros fuel' k c Hk Hfuel Hfuel'; [lia|].
  destruct fuel' as [|fuel']; [lia|].
  simpl. destruct (Z.ltb_spec (Z.of_nat k) (Z.of_nat (length buckets))); [|reflexivity].
  destruct (_ <? _); [reflexivity|].
  replace (to_uint32 (Z.of_nat k + 1)) with (Z.of_nat (S k))
    by (rewrite to_uint32_id; unfold is_uint32; lia).
  apply IH; lia.
Qed.

(** For any histogram of fewer than [2 ^ 32] buckets and any [n], whether or
    not the precondition holds, the call ends after at most [buckets.size()]
    iterations of the scan: it aborts, or it returns an index between 0 and
    [buckets.size()]; the outcome is the same for every sufficient amount of
    fuel. *)
Theorem find_median_bucket_terminates fuel fuel' NDEBUG buckets n :
  Z.of_nat (length buckets) < 2 ^ 32 ->
  (length buckets < fuel)%nat -> (length buckets < fuel')%nat ->
  (find_median_bucket fuel NDEBUG buckets n = Some Aborted
   \/ exists i, find_median_bucket fuel NDEBUG buckets n = Some (Returned i)
                /\ 0 <= i <= Z.of_nat (length buckets))
  /\ find_median_bucket fuel' NDEBUG buckets n = find_median_bucket fuel NDEBUG buckets n.
Proof.
  intros Hsize Hfuel Hfuel'. unfold find_median_bucket. split.
  - destruct (negb NDEBUG && negb (accumulate_0u buckets =? n)); [now left|right].
    destruct (find_median_loop_range buckets n Hsize fuel 0%nat 0) as (r & Hr & Hrange);
      [lia|lia|].
    change (Z.of_nat 0) with 0 in Hr. rewrite Hr. exists (Z.of_nat r). split; [reflexivity|lia].
  - destruct (negb NDEBUG && negb (accumulate_0u buckets =? n)); [reflexivity|].
    pose proof (find_median_loop_fuel buckets n Hsize fuel' fuel 0%nat 0
                  ltac:(lia) ltac:(lia) ltac:(lia)) as Hsame.
    change (Z.of_nat 0) with 0 in Hsame. now rewrite Hsame.
Qed.

Lemma find_median_bucket_terminates_witness :
  (find_median_bucket 4 false [7; 7; 7] 3 = Some Aborted
   \/ exists i, find_median_bucket 4 false [7; 7; 7] 3 = Some (Returned i)
                /\ 0 <= i <= Z.of_nat (length [7; 7; 7]))
  /\ find_median_bucket 9 false [7; 7; 7] 3 = find_median_bucket 4 false [7; 7; 7] 3.
Proof. apply (find_median_bucket_terminates 4 9 false [7; 7; 7] 3); simpl; lia. Defined.

(** The age that the median-age program prints, for a population of
    [1 <= n < 2 ^ 32], is the age of at least one of the generated
    individuals. *)
Theorem main_with_median_is_an_age `{StdRandom} (n : Z) (env : Environment) :
  1 <= n < 2 ^ 32 ->
  exists b,
    median_age (main_with n env) = Some (Returned b)
    /\ b ∈ soa.age (soa.create_random_census (Z.to_nat n)).
Proof.
  intros Hn.
  destruct (main_with_median_age n env Hn)
    as (buckets & b & Hrun & Htot & Hmed & Hb & Habove & Hbelow).
  exists (Z.of_nat b). split; [exact Hmed|].
  set (ages := soa.age (soa.create_random_census (Z.to_nat n))) in *.
  assert (Hlen : length ages = Z.to_nat n).
  { unfold ages. rewrite soa_census_fields; simpl. now rewrite generate_length, length_vector. }
  assert (Hages : Forall (fun age => 0 <= age < Z.of_nat (length (replicate 256 0))) ages).
  { rewrite length_replicate. unfold ages. rewrite soa_census_fields; simpl.
    apply generate_Forall. intros g. rewrite draw_age_unfold.
    pose proof (to_uint8_range (fst (age_distr 120 (25 # 100) g))) as Hr.
    unfold is_uint8 in Hr. lia. }
  assert (Hzero : Forall is_size_t (replicate 256 0)).
  { apply Forall_replicate. unfold is_size_t. lia. }
  assert (Hroom : total (replicate 256 0) + Z.of_nat (length ages) < 2 ^ 64).
  { rewrite total_replicate_0, Hlen. lia. }
  pose proof (bucketise_loop_counts ages _ _ Hzero Hages Hroom Hrun b 0
                ltac:(now apply lookup_replicate_2)) as Hcount.
  rewrite (cumulative_S _ _ _ Hcount) in Habove.
  assert (Hsome : 0 < individuals_aged (Z.of_nat b) ages) by lia.
  unfold individuals_aged in Hsome.
  destruct (filter (fun age => age = Z.of_nat b) ages) as [|x rest] eqn:Hfilter;
    [simpl in Hsome; lia|].
  assert (Hx : x ∈ filter (fun age => age = Z.of_nat b) ages) by (rewrite Hfilter; left).
  apply list_elem_of_filter in Hx as [-> Hin]. exact Hin.
Qed.

Lemma main_with_median_is_an_age_witness :
  exists b,
    median_age (main_with (H := Doubles.lcg_random) 5
                  {| time0 := 0; start_time := 0; end_time := 1 |}) = Some (Returned b)
    /\ b ∈ soa.age (soa.create_random_census (H := Doubles.lcg_random) (Z.to_nat 5)).
Proof.
  apply (main_with_median_is_an_age (H := Doubles.lcg_random) 5
           {| time0 := 0; start_time := 0; end_time := 1 |}). lia.
Defined.
